(** * Vocabulary highlighting in the reader pane

    A shallow embedding of the vocabulary overlay of the reader pane
    ([clearVocabularyHighlights], [highlightVocabularyInDocument],
    [applyHighlights], [handleRelocated] and the popover placement of
    [handleClick]) together with the properties of its specification.

    Conventions of the model.
    - A JavaScript string is a Rocq [string]; its characters stand for the
      UTF-16 code units U+0000 to U+00FF, so that the case mappings, the
      white space table and the word characters below are the ECMAScript
      ones restricted to that range.
    - The content document is its [body]: the list of child nodes of the
      body element. The body element itself (and the html element above it)
      carries neither the class [vocab-highlight] nor the id
      [vocab-tooltip]; what lies outside the body is not part of the model.
      This holds for the style sheet that [highlightVocabularyInDocument]
      writes into the element of id [vocab-style], which it creates in the
      head of the document: the body holds no element of that id.
    - Coordinates are rational numbers.
    - A run of the engine that would not terminate is [None]. *)

From Stdlib Require Import List String Ascii Bool Arith Lia ZArith QArith Lqa.
From Stdlib Require Import Qabs DecimalString DecimalNat.
Import ListNotations.
Local Open Scope string_scope.
Local Open Scope list_scope.
Local Open Scope nat_scope.

(** ** Strings *)

Module Js.

Definition code (c : ascii) : nat := nat_of_ascii c.

Definition between (lo hi n : nat) : bool := (lo <=? n) && (n <=? hi).

(** [IsWordChar] of a regular expression without the [u] flag:
    [A-Za-z0-9_]. *)
Definition isWordChar (c : ascii) : bool :=
  let n := code c in
  between 48 57 n || between 65 90 n || (n =? 95) || between 97 122 n.

(** [Canonicalize] under the [i] flag without [u]: the upper case mapping
    when it is a single code unit and does not send a non-ASCII unit to an
    ASCII one. In the range modelled, U+00B5 and U+00FF map outside the
    range to units that no other unit of the range maps to, and U+00DF
    maps to two units; the three are kept. *)
Definition canonicalize (c : ascii) : ascii :=
  let n := code c in
  if between 97 122 n || (between 224 254 n && negb (n =? 247))
  then ascii_of_nat (n - 32) else c.

(** One code unit of [String.prototype.toLowerCase]. *)
Definition lowerChar (c : ascii) : ascii :=
  let n := code c in
  if between 65 90 n || (between 192 222 n && negb (n =? 215))
  then ascii_of_nat (n + 32) else c.

Fixpoint toLowerCase (s : string) : string :=
  match s with
  | EmptyString => EmptyString
  | String c r => String (lowerChar c) (toLowerCase r)
  end.

(** [WhiteSpace] and [LineTerminator], as stripped by [trim]. *)
Definition isWhiteSpace (c : ascii) : bool :=
  let n := code c in between 9 13 n || (n =? 32) || (n =? 160).

Fixpoint trimStart (s : string) : string :=
  match s with
  | EmptyString => EmptyString
  | String c r => if isWhiteSpace c then trimStart r else s
  end.

Fixpoint trimEnd (s : string) : string :=
  match s with
  | EmptyString => EmptyString
  | String c r =>
      match trimEnd r with
      | EmptyString => if isWhiteSpace c then EmptyString else String c EmptyString
      | r' => String c r'
      end
  end.

Definition trim (s : string) : string := trimEnd (trimStart s).

(** [s.slice(a, b)] for [0 <= a], [0 <= b]. *)
Definition slice (s : string) (a b : nat) : string := substring a (b - a) s.

Definition isEmpty (s : string) : bool :=
  match s with EmptyString => true | _ => false end.

(** The concatenation of a list of strings. *)
Definition concatAll (l : list string) : string :=
  fold_right append EmptyString l.

End Js.

(** ** The pattern handed to [new RegExp] *)

Module Pattern.

(** The characters of the class in [escapeRegExp], which are the
    [SyntaxCharacter]s of the pattern grammar. *)
Definition isSyntaxCharacter (c : ascii) : bool :=
  existsb (Ascii.eqb c) (list_ascii_of_string ".*+?^${}()|[]\").

(** [str.replace(/[.*+?^${}()|[\]\\]/g, '\\$&')] *)
Fixpoint escapeRegExp (str : string) : string :=
  match str with
  | EmptyString => EmptyString
  | String c r =>
      if isSyntaxCharacter c
      then String "\" (String c (escapeRegExp r))
      else String c (escapeRegExp r)
  end.

(** [words.map(escapeRegExp).join('|')] *)
Definition pattern (ws : list string) : string :=
  String.concat "|" (map escapeRegExp ws).

(** The alternatives of a pattern made of literal characters, escaped
    syntax characters and the bars between alternatives, as the pattern
    grammar reads it: a character that is no [SyntaxCharacter] is a
    [PatternCharacter] and stands for itself, and a backslash before a
    [SyntaxCharacter] is an [IdentityEscape] that stands for that
    character. [None] for a pattern with any other syntax: a bare syntax
    character, and a backslash before any other character; among these
    are the classes ([\d], [\w], [\s]), the assertion [\b], the
    back-references and the control escapes, none of which stands for
    the character after the backslash. [cur] is the alternative being
    read. *)
Fixpoint readAlternatives (cur : string) (p : string) : option (list string) :=
  match p with
  | EmptyString => Some [cur]
  | String c r =>
      if Ascii.eqb c "\" then
        match r with
        | String d r' =>
            if isSyntaxCharacter d
            then readAlternatives (cur ++ String d EmptyString) r'
            else None
        | EmptyString => None
        end
      else if Ascii.eqb c "|" then
        match readAlternatives EmptyString r with
        | Some alts => Some (cur :: alts)
        | None => None
        end
      else if isSyntaxCharacter c then None
      else readAlternatives (cur ++ String c EmptyString) r
  end.

End Pattern.

(** ** The matcher: [new RegExp('\\b(' + pattern + ')\\b', 'gi')]

    Every word is passed through [escapeRegExp] before it is joined into the
    alternation, so each alternative is the literal sequence of the word's
    characters ([readAlternatives_pattern] below), compared after
    [Canonicalize]. The matcher is therefore given by the list of words. *)

Module Matcher.
Import Js.

(** Assertion [\b] at index [i] of [text]. *)
Definition wordCharAt (text : string) (i : nat) : bool :=
  match get i text with Some c => isWordChar c | None => false end.

Definition wordBoundary (text : string) (i : nat) : bool :=
  xorb (match i with 0 => false | S j => wordCharAt text j end)
       (wordCharAt text i).

(** The literal [w] at index [i], ignoring case. *)
Fixpoint literalAt (w text : string) (i : nat) : bool :=
  match w with
  | EmptyString => true
  | String c w' =>
      match get i text with
      | Some d =>
          Ascii.eqb (canonicalize c) (canonicalize d) && literalAt w' text (S i)
      | None => false
      end
  end.

(** [(w1|...|wn)\b] at index [i]: alternatives are tried left to right,
    and the engine backtracks into the next one when the closing
    boundary fails. The result is the length of the match. *)
Fixpoint alternationAt (words : list string) (text : string) (i : nat)
  : option nat :=
  match words with
  | [] => None
  | w :: ws =>
      if literalAt w text i && wordBoundary text (i + length w)
      then Some (length w)
      else alternationAt ws text i
  end.

(** The search of [exec]: start positions [i], [i+1], ... ([n] of them). *)
Fixpoint search (words : list string) (text : string) (i n : nat)
  : option (nat * string) :=
  match n with
  | 0 => None
  | S n' =>
      match
        (if wordBoundary text i then alternationAt words text i else None)
      with
      | Some len => Some (i, slice text i (i + len))
      | None => search words text (S i) n'
      end
  end.

(** [regex.exec(text)] with [regex.lastIndex = lastIndex]: the index and
    the text of the match. On a match the engine sets [regex.lastIndex] to
    the end of the match, on failure to [0]. *)
Definition exec (words : list string) (text : string) (lastIndex : nat)
  : option (nat * string) :=
  if length text <? lastIndex then None
  else search words text lastIndex (S (length text - lastIndex)).

(** [regex.test(text)] with [regex.lastIndex = 0]. *)
Definition test (words : list string) (text : string) : bool :=
  match exec words text 0 with Some _ => true | None => false end.

End Matcher.

(** ** Document nodes *)

Unset Elimination Schemes.
Inductive node : Type :=
| Text (data : string)
| Comment (data : string)
| Elem (tagName : string) (attrs : list (string * string)) (childNodes : list node).
Set Elimination Schemes.

(** Induction over a node with the hypothesis on every child. *)
Fixpoint node_induction (P : node -> Prop)
  (HT : forall s, P (Text s))
  (HC : forall s, P (Comment s))
  (HE : forall t a kids, Forall P kids -> P (Elem t a kids))
  (n : node) : P n :=
  match n with
  | Text s => HT s
  | Comment s => HC s
  | Elem t a kids =>
      HE t a kids
        ((fix all (l : list node) : Forall P l :=
            match l with
            | [] => Forall_nil P
            | k :: r => Forall_cons k (node_induction P HT HC HE k) (all r)
            end) kids)
  end.

Module Dom.
Import Js.

Fixpoint getAttribute (attrs : list (string * string)) (name : string)
  : option string :=
  match attrs with
  | [] => None
  | (k, v) :: rest => if String.eqb k name then Some v else getAttribute rest name
  end.

(** The tokens of a [class] attribute (split on ASCII white space). *)
Definition isClassSep (c : ascii) : bool :=
  let n := code c in
  (n =? 9) || (n =? 10) || (n =? 12) || (n =? 13) || (n =? 32).

Fixpoint tokens (cur : string) (s : string) : list string :=
  match s with
  | EmptyString => if isEmpty cur then [] else [cur]
  | String c r =>
      if isClassSep c
      then (if isEmpty cur then tokens EmptyString r else cur :: tokens EmptyString r)
      else tokens (cur ++ String c EmptyString) r
  end.

Definition classList (attrs : list (string * string)) : list string :=
  match getAttribute attrs "class" with
  | Some v => tokens EmptyString v
  | None => []
  end.

Definition hasClass (cls : string) (attrs : list (string * string)) : bool :=
  existsb (String.eqb cls) (classList attrs).

(** [n.matches('.vocab-highlight')] *)
Definition isHighlight (n : node) : bool :=
  match n with
  | Elem _ attrs _ => hasClass "vocab-highlight" attrs
  | _ => false
  end.

(** [n.textContent] *)
Fixpoint textContent (n : node) : string :=
  match n with
  | Text s => s
  | Comment _ => EmptyString
  | Elem _ _ kids => concatAll (map textContent kids)
  end.

(** [body.textContent] of a list of child nodes. *)
Definition textOf (kids : list node) : string :=
  concatAll (map textContent kids).

End Dom.

(** ** The clear pass *)

Module Clear.
Import Js Dom.

(** [doc.querySelectorAll('.vocab-highlight')]: the matching elements in
    document order, nested ones included. *)
Fixpoint selectIn (n : node) : list node :=
  match n with
  | Elem _ _ kids =>
      (if isHighlight n then [n] else []) ++ flat_map selectIn kids
  | _ => []
  end.

Definition querySelectorAll (kids : list node) : list node :=
  flat_map selectIn kids.

(** [parent.normalize()]: in the whole subtree, empty text nodes are
    removed and adjacent text nodes are merged into the first. *)
Fixpoint mergeText (kids : list node) : list node :=
  match kids with
  | [] => []
  | Text s :: rest =>
      if isEmpty s then mergeText rest
      else match mergeText rest with
           | Text s' :: rest' => Text (s ++ s') :: rest'
           | rest' => Text s :: rest'
           end
  | k :: rest => k :: mergeText rest
  end.

Fixpoint normalizeNode (n : node) : node :=
  match n with
  | Elem t a kids => Elem t a (mergeText (map normalizeNode kids))
  | _ => n
  end.

Definition normalize (kids : list node) : list node :=
  mergeText (map normalizeNode kids).

(** One iteration of the loop of [clearVocabularyHighlights] that changes
    the document: the first highlight element in document order that is
    still attached is replaced by a text node of its text content and its
    parent is normalized. [firstHit] locates it among [kids] and below;
    the flag tells whether it was one of [kids] themselves, in which case
    the caller (the parent) is the node to normalize. *)
Fixpoint firstHit (below : node -> option node) (kids : list node)
  : option (bool * list node) :=
  match kids with
  | [] => None
  | k :: rest =>
      if isHighlight k then Some (true, Text (textContent k) :: rest)
      else match below k with
           | Some k' => Some (false, k' :: rest)
           | None =>
               match firstHit below rest with
               | Some (direct, rest') => Some (direct, k :: rest')
               | None => None
               end
           end
  end.

Definition settle (hit : option (bool * list node)) : option (list node) :=
  match hit with
  | Some (true, kids') => Some (normalize kids')
  | Some (false, kids') => Some kids'
  | None => None
  end.

Fixpoint stepNode (n : node) : option node :=
  match n with
  | Elem t a kids =>
      match settle (firstHit stepNode kids) with
      | Some kids' => Some (Elem t a kids')
      | None => None
      end
  | _ => None
  end.

Definition stepKids (kids : list node) : option (list node) :=
  settle (firstHit stepNode kids).

(** The body of the [for] loop for one element of the snapshot [spans].
    An element of the snapshot that sits inside an element replaced
    earlier is detached: replacing it changes nothing in the document.
    The attached elements come up in document order, so each iteration
    that touches the document touches the first highlight still in it. *)
Definition replaceNext (kids : list node) : list node :=
  match stepKids kids with Some kids' => kids' | None => kids end.

(** [doc.getElementById(id)] followed by
    [tooltip.parentNode.removeChild(tooltip)]. *)
Definition hasId (id : string) (n : node) : bool :=
  match n with
  | Elem _ attrs _ =>
      match getAttribute attrs "id" with
      | Some v => String.eqb v id
      | None => false
      end
  | _ => false
  end.

Fixpoint removeFirst (below : node -> option node) (kids : list node)
  : option (list node) :=
  match kids with
  | [] => None
  | k :: rest =>
      if hasId "vocab-tooltip" k then Some rest
      else match below k with
           | Some k' => Some (k' :: rest)
           | None =>
               match removeFirst below rest with
               | Some rest' => Some (k :: rest')
               | None => None
               end
           end
  end.

Fixpoint removeIn (n : node) : option node :=
  match n with
  | Elem t a kids =>
      match removeFirst removeIn kids with
      | Some kids' => Some (Elem t a kids')
      | None => None
      end
  | _ => None
  end.

Definition removeTooltip (kids : list node) : list node :=
  match removeFirst removeIn kids with Some kids' => kids' | None => kids end.

(** The markup part of [clearVocabularyHighlights]. *)
Definition clearBody (kids : list node) : list node :=
  let spans := querySelectorAll kids in
  removeTooltip (fold_left (fun b _ => replaceNext b) spans kids).

End Clear.

(** ** The apply pass *)

Record VocabItem : Type := mkVocabItem {
  word : string;
  explanation : option string;
  context : option string
}.

Module Apply.
Import Js Dom Matcher.

(** [Array.from(new Set(l))]: first occurrences, in order. *)
Definition setAdd (seen : list string) (w : string) : list string :=
  if existsb (String.eqb w) seen then seen else seen ++ [w].

Definition arrayFromSet (l : list string) : list string :=
  fold_left setAdd l [].

(** The [words] of [highlightVocabularyInDocument]. *)
Definition words (vocabulary : list VocabItem) : list string :=
  arrayFromSet
    (filter (fun w => 0 <? length w) (map (fun v => trim (word v)) vocabulary)).

(** [span.textContent = s] on a fresh element. *)
Definition textChild (s : string) : list node :=
  if isEmpty s then [] else [Text s].

(** The span built for one match: [doc.createElement('span')] with its
    class, its text and its [data-word]. *)
Definition createSpan (matchText : string) : node :=
  Elem "SPAN"
       [("class", "vocab-highlight"); ("data-word", toLowerCase matchText)]
       (textChild matchText).

(** The [while ((match = regex.exec(text)))] loop and the tail that
    follows it. [lastIndex] is both the local variable of that name and
    [regex.lastIndex], which agree at every call of [exec]. The loop has
    no bound in the source: [None] is a run that exhausts [fuel]. *)
Fixpoint execLoop (fuel : nat) (ws : list string) (text : string)
         (lastIndex : nat) (frag : list node) : option (list node) :=
  match fuel with
  | 0 => None
  | S fuel' =>
      match exec ws text lastIndex with
      | Some (start, matchText) =>
          let frag1 :=
            if lastIndex <? start
            then frag ++ [Text (slice text lastIndex start)] else frag in
          execLoop fuel' ws text (start + length matchText)
                   (frag1 ++ [createSpan matchText])
      | None =>
          Some (if lastIndex <? length text
                then frag ++ [Text (slice text lastIndex (length text))]
                else frag)
      end
  end.

(** The fragment that replaces a text node on which [regex.test]
    succeeded. Every run of the loop that ends makes at most
    [length text] matches before the failing call of [exec]: see
    [buildFragment_complete] below. *)
Definition buildFragment (ws : list string) (text : string)
  : option (list node) :=
  execLoop (S (length text)) ws text 0 [].

(** What the [for (const node of textNodes)] loop puts in place of the
    text node [Text text]. *)
Definition replaceText (ws : list string) (text : string)
  : option (list node) :=
  if isEmpty text then Some [Text text]
  else if negb (test ws text) then Some [Text text]
  else buildFragment ws text.

Definition isScriptOrStyle (tag : string) : bool :=
  String.eqb tag "SCRIPT" || String.eqb tag "STYLE".

(** The replacements of a list of children, one after the other. *)
Fixpoint sequence (xs : list (option (list node))) : option (list node) :=
  match xs with
  | [] => Some []
  | x :: rest =>
      match x, sequence rest with
      | Some a, Some b => Some (a ++ b)
      | _, _ => None
      end
  end.

(** The tree walk and the replacement loop together. The walker lists
    the text nodes before any of them is replaced, and a replacement
    touches nothing but its own text node, so the pass is a map over the
    tree. [inHighlight] is [parentElement.closest('.vocab-highlight')],
    [parentTag] is [parentElement.tagName]. *)
Fixpoint applyNode (ws : list string) (inHighlight : bool)
         (parentTag : string) (n : node) : option (list node) :=
  match n with
  | Text text =>
      if inHighlight || isScriptOrStyle parentTag then Some [n]
      else replaceText ws text
  | Comment _ => Some [n]
  | Elem t a kids =>
      match
        sequence (map (applyNode ws (inHighlight || isHighlight n) t) kids)
      with
      | Some kids' => Some [Elem t a kids']
      | None => None
      end
  end.

Definition applyKids (ws : list string) (inHighlight : bool)
           (parentTag : string) (kids : list node) : option (list node) :=
  sequence (map (applyNode ws inHighlight parentTag) kids).

(** The pass over [doc.body]. *)
Definition applyBody (ws : list string) (kids : list node)
  : option (list node) :=
  applyKids ws false "BODY" kids.

End Apply.

(** ** The document and the reconciliation pass *)

Record Document : Type := mkDocument {
  body : list node;
  (** the listeners registered on the document for [click], by identity *)
  clickListeners : list nat;
  (** the expando property [_vocabClickHandler] *)
  vocabClickHandler : option nat;
  (** the identity that the next closure created gets *)
  nextClosure : nat
}.

Module Reader.
Import Js Dom Clear Apply.

Definition clearVocabularyHighlights (doc : Document) : Document :=
  mkDocument (clearBody (body doc)) (clickListeners doc)
             (vocabClickHandler doc) (nextClosure doc).

(** [doc.removeEventListener('click', h)] *)
Definition removeEventListener (h : nat) (ls : list nat) : list nat :=
  filter (fun x => negb (x =? h)) ls.

(** [doc.addEventListener('click', h)]: a listener already registered is
    not registered again. *)
Definition addEventListener (h : nat) (ls : list nat) : list nat :=
  if existsb (Nat.eqb h) ls then ls else ls ++ [h].

(** The end of [highlightVocabularyInDocument]: [handleClick] is a new
    closure on every call. *)
Definition rebindClick (doc : Document) : Document :=
  let handleClick := nextClosure doc in
  let ls :=
    match vocabClickHandler doc with
    | Some previousHandler => removeEventListener previousHandler (clickListeners doc)
    | None => clickListeners doc
    end in
  mkDocument (body doc) (addEventListener handleClick ls)
             (Some handleClick) (S handleClick).

(** The pass: the clear pass, the word list and its guard, the apply
    pass over the body, and the rebinding of the click handler. Between
    the last two the source writes its style sheet into the element of id
    [vocab-style] of the head and of the host document, and defines
    [handleClick], whose placement arithmetic is [Popover.place]. *)
Definition highlightVocabularyInDocument
           (doc : Document) (vocabulary : list VocabItem) : option Document :=
  let doc1 := clearVocabularyHighlights doc in
  let ws := words vocabulary in
  match ws with
  | [] => Some doc1
  | _ =>
      match applyBody ws (body doc1) with
      | Some body' =>
          Some (rebindClick
                  (mkDocument body' (clickListeners doc1)
                              (vocabClickHandler doc1) (nextClosure doc1)))
      | None => None
      end
  end.

(** [applyHighlights] of the effect, for the document of the frame (when
    the frame has no document or no body the source returns at once). *)
Definition applyHighlights (doc : Document) (vocab : list VocabItem)
  : option Document :=
  match vocab with
  | [] => Some (clearVocabularyHighlights doc)
  | _ => highlightVocabularyInDocument doc vocab
  end.

End Reader.


(** ** Consecutive passes *)

Module Passes.
Import Reader.


(** A document on which the engine has not run yet. *)
Definition freshDocument (kids : list node) : Document :=
  mkDocument kids [] None 0.


End Passes.

(** ** Relocation notifications and the timer queue *)

Module Scheduler.

(** The part of the event loop that the effect of the reader pane uses:
    the clock in milliseconds, the due times of the pending timers whose
    callback is [applyHighlights], and the number of times a timer has
    run that callback. *)
Record Loop : Type := mkLoop {
  clock : nat;
  pending : list nat;
  runs : nat
}.

(** [setTimeout(applyHighlights, delay)] *)
Definition setTimeout (delay : nat) (l : Loop) : Loop :=
  mkLoop (clock l) (pending l ++ [clock l + delay]) (runs l).

(** [handleRelocated]: the listener of the [relocated] event. *)
Definition handleRelocated (l : Loop) : Loop := setTimeout 150 l.

(** Time passes: every timer that has come due runs its callback. *)
Definition elapse (ms : nat) (l : Loop) : Loop :=
  let now := clock l + ms in
  let due := filter (fun t => t <=? now) (pending l) in
  let later := filter (fun t => negb (t <=? now)) (pending l) in
  mkLoop now later (runs l + List.length due).

Inductive event : Type :=
| Relocated
| Elapse (ms : nat).

Definition step (l : Loop) (e : event) : Loop :=
  match e with
  | Relocated => handleRelocated l
  | Elapse ms => elapse ms l
  end.

Definition run (l : Loop) (es : list event) : Loop := fold_left step es l.

(** A burst: a notification, then one more after each of the gaps. *)
Definition burst (gaps : list nat) : list event :=
  Relocated :: flat_map (fun g => [Elapse g; Relocated]) gaps.

Definition idle (now : nat) : Loop := mkLoop now [] 0.

End Scheduler.

(** ** The placement of the popover *)

Module Popover.
Local Open Scope Q_scope.

(** The fields of the rectangles that [handleClick] reads. *)
Record DOMRect : Type := mkRect {
  left : Q;
  top : Q;
  bottom : Q;
  width : Q;
  height : Q
}.

Record Position : Type := mkPosition {
  styleLeft : Q;
  styleTop : Q
}.

(** [a > b] and [a < b] on coordinates. *)
Definition gt (a b : Q) : bool := negb (Qle_bool a b).
Definition lt (a b : Q) : bool := negb (Qle_bool b a).

(** The position computed by [handleClick]. [innerWidth] and
    [innerHeight] are those of the main window, [viewportHeight] is
    [doc.defaultView.innerHeight], [sidebar] is the width of the element
    of class [RightSidebar] when there is one, [rect] is the rectangle
    of the span and [tipRect] that of the popover. *)
Definition place (innerWidth innerHeight viewportHeight : Q)
           (sidebar : option Q) (rect tipRect : DOMRect) : Position :=
  let isMobile := Qle_bool innerWidth 640 in
  let rightSidebarWidth :=
    if isMobile then 0
    else match sidebar with Some w => w | None => 0 end in
  let top0 := bottom rect + 6 in
  let top1 :=
    if gt (top0 + height tipRect) (viewportHeight - 8)
    then (let t := top rect - height tipRect - 6 in if lt t 8 then 8 else t)
    else top0 in
  let left0 := left rect in
  if isMobile
  then mkPosition ((innerWidth - width tipRect) / 2)
                  ((innerHeight - height tipRect) / 2)
  else
    let padding := 16 in
    let availableWidth := innerWidth - rightSidebarWidth - padding in
    let maxLeft := availableWidth - width tipRect in
    let left1 := if gt left0 maxLeft then maxLeft else left0 in
    let left2 := if lt left1 8 then 8 else left1 in
    mkPosition left2 top1.

End Popover.

(** ** Notions used to state the properties *)

Module Shape.
Import Js Dom Clear.

(** The clear loop described by recursion over the tree: every highlight
    element that is attached becomes a text node of its text content, and
    every node that had a highlight element among its children is
    normalized. [clearKids_loop] below shows that this is what the loop of
    [clearVocabularyHighlights] computes. *)
Definition clearChild (below : node -> node) (k : node) : node :=
  if isHighlight k then Text (textContent k) else below k.

Fixpoint clearNode (n : node) : node :=
  match n with
  | Elem t a kids =>
      let kids' := map (clearChild clearNode) kids in
      Elem t a (if existsb isHighlight kids then normalize kids' else kids')
  | _ => n
  end.

Definition clearKids (kids : list node) : list node :=
  let kids' := map (clearChild clearNode) kids in
  if existsb isHighlight kids then normalize kids' else kids'.

(** The replacement alone, with no normalization. *)
Fixpoint replaceIn (n : node) : node :=
  match n with
  | Elem t a kids => Elem t a (map (clearChild replaceIn) kids)
  | _ => n
  end.

Definition replaceAll (kids : list node) : list node :=
  map (clearChild replaceIn) kids.

(** A list of child nodes with no empty text node and no two adjacent
    text nodes. *)
Definition isText (n : node) : bool :=
  match n with Text _ => true | _ => false end.

Definition startsWithText (kids : list node) : bool :=
  match kids with k :: _ => isText k | [] => false end.

Fixpoint merged (kids : list node) : bool :=
  match kids with
  | [] => true
  | Text s :: rest => negb (isEmpty s) && negb (startsWithText rest) && merged rest
  | _ :: rest => merged rest
  end.

(** A normalized subtree, as a parser produces it. *)
Fixpoint isNormalizedNode (n : node) : bool :=
  match n with
  | Elem _ _ kids => merged kids && forallb isNormalizedNode kids
  | _ => true
  end.

Definition isNormalized (kids : list node) : bool :=
  merged kids && forallb isNormalizedNode kids.

(** Some element of the subtree has the given id:
    [doc.getElementById(id)] is not [null]. *)
Fixpoint containsId (id : string) (n : node) : bool :=
  match n with
  | Elem _ _ kids => hasId id n || existsb (containsId id) kids
  | _ => false
  end.

Definition hasElementWithId (id : string) (kids : list node) : bool :=
  existsb (containsId id) kids.

(** No word of the alternation is empty. *)
Definition nonEmptyWords (ws : list string) : Prop :=
  Forall (fun w => 0 < length w) ws.

(** A piece of a fragment: a text node or a span made by [createSpan]. *)
Inductive piece : node -> Prop :=
| piece_text s : piece (Text s)
| piece_span m : piece (Apply.createSpan m).

(** [fine] is [coarse] with some text nodes cut into several. *)
Inductive refines : list node -> list node -> Prop :=
| refines_nil : refines [] []
| refines_same k fine coarse :
    refines fine coarse -> refines (k :: fine) (k :: coarse)
| refines_cut pieces s fine coarse :
    forallb isText pieces = true -> textOf pieces = s ->
    refines fine coarse -> refines (pieces ++ fine) (Text s :: coarse).

(** Functions on nodes that leave text nodes alone. *)
Definition keepsText (g : node -> node) : Prop :=
  forall s, g (Text s) = Text s.

Definition keepsShape (g : node -> node) : Prop :=
  keepsText g /\ forall k, isText k = false -> isText (g k) = false.

(** What the induction over the tree carries for one step of the clear
    loop. *)
Definition stepFact (n : node) : Prop :=
  (forall n', stepNode n = Some n' ->
              isHighlight n' = isHighlight n /\
              clearNode n' = clearNode n /\
              List.length (selectIn n') < List.length (selectIn n)) /\
  (stepNode n = None -> isHighlight n = false -> selectIn n = []).

(** What the induction over the tree carries for the apply pass followed
    by the clear loop. *)
Definition restoreFact (ws : list string) (k : node) : Prop :=
  isNormalizedNode k = true -> selectIn k = [] ->
  forall parentTag r,
    Apply.applyNode ws false parentTag k = Some r ->
    refines (map (clearChild clearNode) r) [k] /\
    (existsb isHighlight r = false -> map (clearChild clearNode) r = [k]).


End Shape.

(** ** Sample documents and vocabularies *)

Module Samples.
Import Passes.

Definition item (w : string) : VocabItem := mkVocabItem w None None.

(** Two adjacent text nodes, as a script or [Text.splitText] leaves
    them. *)
Definition splitPage : Document :=
  freshDocument [Text "con"; Text "cat"].

(** A normalized page with an empty element of the id of the popover
    between two texts. *)
Definition brokenPage : Document :=
  freshDocument
    [Text "con"; Elem "DIV" [("id", "vocab-tooltip")] []; Text "cat"].


(** A page as the parser gives it, with a highlight left by an earlier
    pass. *)
Definition stalePage : Document :=
  freshDocument
    [Elem "P" []
       [Text "concatenate a ";
        Elem "SPAN" [("class", "vocab-highlight"); ("data-word", "cat")]
             [Text "cat"];
        Comment "pagebreak";
        Elem "EM" [] [Text "Cats"]];
     Elem "STYLE" [] [Text "cat"]].

End Samples.

(** ** The popover of a span and the delete button *)

Module Inspect.
Import Js Dom.

(** What [handleClick] puts into the popover of a span: its title, its
    body, and the word the delete button hands to [onDelete]. *)
Record Content : Type := mkContent {
  title : string;
  text : string;
  deletes : string
}.

(** [a || b] on strings. *)
Definition orElse (a b : string) : string := if isEmpty a then b else a.

(** [(span.getAttribute('data-word') || span.textContent || '').toLowerCase()] *)
Definition spanWord (span : node) : string :=
  let attr :=
    match span with
    | Elem _ attrs _ =>
        match getAttribute attrs "data-word" with Some d => d | None => EmptyString end
    | _ => EmptyString
    end in
  toLowerCase (orElse attr (textContent span)).

(** [vocabulary.find((v) => v.word.toLowerCase() === word)] *)
Definition findItem (vocabulary : list VocabItem) (w : string) : option VocabItem :=
  find (fun v => String.eqb (toLowerCase (word v)) w) vocabulary.

Definition placeholder : string := "No explanation saved yet.".

Definition inspect (vocabulary : list VocabItem) (span : node) : Content :=
  let w := spanWord span in
  let found := findItem vocabulary w in
  mkContent
    (orElse (match found with Some it => word it | None => EmptyString end)
            (textContent span))
    (orElse (match found with
             | Some it =>
                 match explanation it with Some e => e | None => EmptyString end
             | None => EmptyString
             end)
            placeholder)
    w.

(** The [onDelete] that [applyHighlights] hands to the pass: the new
    vocabulary of the state. *)
Definition onDelete (w : string) (vocabulary : list VocabItem) : list VocabItem :=
  filter (fun v => negb (String.eqb (toLowerCase (word v)) (toLowerCase w)))
         vocabulary.

End Inspect.

(** ** Occurrences of the words in a text *)

Module Occurrence.
Import Js Matcher.

(** Two strings of the same length whose characters agree after
    [Canonicalize]. *)
Fixpoint sameLetters (a b : string) : bool :=
  match a, b with
  | EmptyString, EmptyString => true
  | String c a', String d b' =>
      Ascii.eqb (canonicalize c) (canonicalize d) && sameLetters a' b'
  | _, _ => false
  end.

(** Some word stands at index [i] of [text] between two word
    boundaries. *)
Definition occursAt (ws : list string) (text : string) (i : nat) : bool :=
  wordBoundary text i &&
  existsb (fun w => literalAt w text i && wordBoundary text (i + length w)) ws.

(** A span that the apply pass makes for the words [ws]: built by
    [createSpan] from a text that is one of the words up to case. *)
Definition madeFor (ws : list string) (n : node) : Prop :=
  exists m w,
    n = Apply.createSpan m /\ In w ws /\ sameLetters w m = true.

(** Every word of the vocabulary is stored trimmed. *)
Definition storedTrimmed (vocabulary : list VocabItem) : Prop :=
  forall v, In v vocabulary -> trim (word v) = word v.

End Occurrence.

(** ** Characters and blanks *)

Module Letters.
Import Js.

(** Every character of the model. *)
Definition allChars : list ascii := map ascii_of_nat (seq 0 256).

(** Two strings of the same length with white space at the same places. *)
Fixpoint sameBlanks (a b : string) : bool :=
  match a, b with
  | EmptyString, EmptyString => true
  | String c a', String d b' =>
      Bool.eqb (isWhiteSpace c) (isWhiteSpace d) && sameBlanks a' b'
  | _, _ => false
  end.

End Letters.

(** ** The snippet kept for the reading quiz *)

Module Quiz.
Import Js.

(** [s.replace(/\s+/g, ' ')]: every maximal run of white space becomes
    one space. [inRun] tells that the character before was white space. *)
Fixpoint collapse (inRun : bool) (s : string) : string :=
  match s with
  | EmptyString => EmptyString
  | String c r =>
      if isWhiteSpace c
      then (if inRun then collapse true r else String " " (collapse true r))
      else String c (collapse false r)
  end.

(** [s.replace(/\u00A0/g, ' ')] *)
Fixpoint replaceNbsp (s : string) : string :=
  match s with
  | EmptyString => EmptyString
  | String c r =>
      String (if code c =? 160 then " "%char else c) (replaceNbsp r)
  end.

Definition maxLen : nat := 4000.

(** The effect that keeps [quizContext]: [textContent] stands for
    [doc.body.innerText || doc.body.textContent || ''], the result is the
    new [quizContext], or [None] when the state is left as it is. *)
Definition quizContext (textContent : string) : option string :=
  let normalized := trim (replaceNbsp (collapse false textContent)) in
  if isEmpty normalized then None else Some (slice normalized 0 maxLen).

(** No white space but single spaces, [afterSpace] telling that a space
    stands before the string. *)
Fixpoint singleSpaced (afterSpace : bool) (s : string) : bool :=
  match s with
  | EmptyString => true
  | String c r =>
      if isWhiteSpace c
      then Ascii.eqb c " " && negb afterSpace && singleSpaced true r
      else singleSpaced false r
  end.

(** Some character of the string is not white space. *)
Fixpoint hasInk (s : string) : bool :=
  match s with
  | EmptyString => false
  | String c r => negb (isWhiteSpace c) || hasInk r
  end.

End Quiz.

(** ** The page number prompt *)

Inductive turn : Type :=
| Next
| Prev.

Module PageJump.
Import Js.
Local Open Scope Z_scope.

Definition isDigit (c : ascii) : bool := between 48 57 (code c).

Definition digitValue (c : ascii) : Z := Z.of_nat (code c - 48).

(** The longest prefix of decimal digits, read as a number; [None] when
    there is no digit. [seen] tells that a digit has been read. *)
Fixpoint digits (acc : Z) (seen : bool) (s : string) : option Z :=
  match s with
  | EmptyString => if seen then Some acc else None
  | String c r =>
      if isDigit c then digits (10 * acc + digitValue c) true r
      else if seen then Some acc else None
  end.

(** [Number.parseInt(input, 10)]; [None] is [NaN]. Page numbers are
    integers below 2^53, which a number holds exactly. *)
Definition parseInt (input : string) : option Z :=
  match trimStart input with
  | String "-" r => option_map Z.opp (digits 0 false r)
  | String "+" r => digits 0 false r
  | s => digits 0 false s
  end.

(** [String(n)] for a page number. *)
Definition pageString (n : nat) : string :=
  DecimalString.NilZero.string_of_uint (Nat.to_uint n).

(** [handlePageClick]: the calls of [tab.next()] and [tab.prev()] it
    makes, in order, when these calls return. [location] is the displayed
    page and the total of [location.start.displayed] when there is a
    location, [answer] is what [window.prompt] returns. *)
Definition handlePageClick (location : option (Z * Z)) (answer : option string)
  : list turn :=
  match location with
  | None => []
  | Some (current, total) =>
      if total <=? 0 then []
      else match answer with
           | None => []
           | Some input =>
               if isEmpty input then []
               else match parseInt input with
                    | None => []
                    | Some target =>
                        if (target <? 1) || (total <? target) then []
                        else
                          let delta := target - current in
                          if delta =? 0 then []
                          else if 0 <? delta
                               then repeat Next (Z.to_nat delta)
                               else repeat Prev (Z.to_nat (- delta))
                    end
           end
  end.

(** The pages that a list of calls moves forward, when each call turns
    one page. *)
Fixpoint net (calls : list turn) : Z :=
  match calls with
  | [] => 0
  | Next :: rest => 1 + net rest
  | Prev :: rest => net rest - 1
  end.

End PageJump.

(** ** Swipes *)

Module Swipe.
Local Open Scope Q_scope.

Record Touch : Type := mkTouch {
  clientX : Q;
  clientY : Q;
  (** [Date.now()] at the event *)
  time : Q
}.

Definition gt (a b : Q) : bool := negb (Qle_bool a b).
Definition lt (a b : Q) : bool := negb (Qle_bool b a).

(** [handleTouchEnd]: the page turn made at the end of a touch that
    began at [t0], if any. [selected] is [hasSelection(selection)]. *)
Definition handleTouchEnd (selected : bool) (t0 t1 : Touch) : option turn :=
  if selected then None
  else
    let deltaX := clientX t1 - clientX t0 in
    let deltaY := clientY t1 - clientY t0 in
    let deltaT := time t1 - time t0 in
    let absX := Qabs deltaX in
    let absY := Qabs deltaY in
    if lt absX 10 then None
    else if gt (absY / absX) 2 && (gt deltaT 100 || lt absX 30) then None
    else if gt deltaX 0 then Some Prev
    else if lt deltaX 0 then Some Next
    else None.

End Swipe.

(** ** The effect that applies the highlights *)

Module Effect.
Import Reader.

(** The reader pane as the effect sees it: the clock, the document of the
    frame, the vocabulary of the state, and the pending timers. Each timer
    holds its due time and the vocabulary that its [applyHighlights]
    closed over: the one of the render in which [handleRelocated] was
    registered. *)
Record World : Type := mkWorld {
  now : nat;
  document : Document;
  vocabulary : list VocabItem;
  timers : list (nat * list VocabItem)
}.

Inductive event : Type :=
| Relocated
| SetVocabulary (vocab : list VocabItem)
| Elapse (ms : nat).

(** The timers that are due run [applyHighlights], each with its own
    vocabulary, in the order they were set. *)
Fixpoint fire (clock : nat) (ts : list (nat * list VocabItem)) (doc : Document)
  : option (Document * list (nat * list VocabItem)) :=
  match ts with
  | [] => Some (doc, [])
  | (due, vocab) :: rest =>
      if due <=? clock
      then match applyHighlights doc vocab with
           | Some doc' => fire clock rest doc'
           | None => None
           end
      else match fire clock rest doc with
           | Some (doc', rest') => Some (doc', (due, vocab) :: rest')
           | None => None
           end
  end.

(** - [Relocated]: [handleRelocated] of the current render sets a timer.
    - [SetVocabulary]: the state changes, the effect is cleaned up
      ([rendition.off], which cancels no timer) and runs again:
      [applyHighlights] with the new vocabulary, at once.
    - [Elapse]: time passes. *)
Definition step (w : World) (e : event) : option World :=
  match e with
  | Relocated =>
      Some (mkWorld (now w) (document w) (vocabulary w)
                    (timers w ++ [(now w + 150, vocabulary w)]))
  | SetVocabulary vocab =>
      match applyHighlights (document w) vocab with
      | Some doc' => Some (mkWorld (now w) doc' vocab (timers w))
      | None => None
      end
  | Elapse ms =>
      match fire (now w + ms) (timers w) (document w) with
      | Some (doc', rest) => Some (mkWorld (now w + ms) doc' (vocabulary w) rest)
      | None => None
      end
  end.

Fixpoint run (w : World) (es : list event) : option World :=
  match es with
  | [] => Some w
  | e :: rest =>
      match step w e with
      | Some w' => run w' rest
      | None => None
      end
  end.

End Effect.

(** ** The popover in the documents *)

Module Popup.
Import Js Dom Clear Apply Inspect.

(** The serialised [style] attributes of the popover, of its title and
    of its delete button. What they hold plays no part below. *)
Record Styles : Type := mkStyles {
  tooltipStyle : string;
  titleStyle : string;
  buttonStyle : string
}.

(** The element that [handleClick] builds: [tooltip] with its [title]
    and [body]. Setting [textContent] to the empty string adds no
    child. *)
Definition tooltipElement (c : Content) (st : Styles) : node :=
  Elem "DIV" [("id", "vocab-tooltip"); ("style", tooltipStyle st)]
       [Elem "DIV" [("id", "vocab-tooltip-title"); ("style", titleStyle st)]
             [Elem "SPAN" [] (textChild (title c));
              Elem "BUTTON" [("style", buttonStyle st)] [Text "Delete"]];
        Elem "DIV" [("id", "vocab-tooltip-body")] (textChild (text c))].

(** What a click does to the two documents, the one of the frame and
    the one of the main window. [target] is [e.target], and with a
    target, the element that [target.closest('.vocab-highlight')] finds.
    That element is read ([data-word], [textContent]) after the
    elements of id [vocab-tooltip] have been removed from the two
    documents: the span given here is the element as it is then, that
    is without the element removed from the frame when that one lay
    within it. *)
Definition handleClick (vocabulary : list VocabItem) (st : Styles)
           (target : option (option node)) (frame window : list node)
  : list node * list node :=
  match target with
  | None => (frame, window)
  | Some span =>
      let frame' := removeTooltip frame in
      let window' := removeTooltip window in
      match span with
      | None => (frame', window')
      | Some s => (frame', window' ++ [tooltipElement (inspect vocabulary s) st])
      end
  end.

(** The number of elements with an id. *)
Fixpoint countIn (id : string) (n : node) : nat :=
  match n with
  | Elem _ _ kids =>
      (if hasId id n then 1 else 0) + list_sum (map (countIn id) kids)
  | _ => 0
  end.

Definition countId (id : string) (kids : list node) : nat :=
  list_sum (map (countIn id) kids).

End Popup.

(** * Properties *)

Import Shape.

(** ** Strings and slices *)

Section StringFacts.
Import Js.
Local Open Scope string_scope.

Lemma append_nil_r (s : string) : s ++ "" = s.
Proof. induction s; simpl; congruence. Qed.

Lemma append_assoc (a b c : string) : (a ++ b) ++ c = a ++ (b ++ c).
Proof. induction a; simpl; congruence. Qed.

Lemma length_append (a b : string) : length (a ++ b) = length a + length b.
Proof. induction a; simpl; congruence. Qed.

Lemma isEmpty_true (s : string) : isEmpty s = true -> s = "".
Proof. destruct s; simpl; congruence. Qed.

Lemma isEmpty_length (s : string) : isEmpty s = Nat.eqb (length s) 0.
Proof. destruct s; reflexivity. Qed.

Lemma concatAll_app (l1 l2 : list string) :
  concatAll (l1 ++ l2)%list = concatAll l1 ++ concatAll l2.
Proof.
  induction l1 as [|x l1 IH]; simpl; [reflexivity|].
  now rewrite IH, append_assoc.
Qed.

Lemma substring_nil (n m : nat) : substring n m "" = "".
Proof. destruct n, m; reflexivity. Qed.

Lemma substring_zero (n : nat) (s : string) : substring n 0 s = "".
Proof.
  revert n; induction s as [|c s IH]; intros [|n]; simpl; auto.
Qed.

Lemma substring_split (s : string) :
  forall a m1 m2,
    substring a (m1 + m2) s = substring a m1 s ++ substring (a + m1) m2 s.
Proof.
  induction s as [|c s IH]; intros a m1 m2.
  - now rewrite !substring_nil.
  - destruct a as [|a].
    + destruct m1 as [|m1]; simpl.
      * reflexivity.
      * f_equal. apply (IH 0 m1 m2).
    + simpl. apply IH.
Qed.

Lemma substring_all (s : string) : substring 0 (length s) s = s.
Proof. induction s; simpl; congruence. Qed.

Lemma length_substring (s : string) :
  forall a m, a + m <= length s -> length (substring a m s) = m.
Proof.
  induction s as [|c s IH]; intros a m H; simpl in H.
  - assert (a = 0) by lia. assert (m = 0) by lia. now subst.
  - destruct a as [|a].
    + destruct m as [|m]; simpl; [reflexivity|].
      f_equal. apply IH. simpl. lia.
    + simpl. apply IH. lia.
Qed.

(** Three consecutive slices make up the slice that spans them. *)
Lemma slice_three (s : string) (a b c d : nat) :
  a <= b -> b <= c -> c <= d ->
  slice s a b ++ slice s b c ++ slice s c d = slice s a d.
Proof.
  intros Hab Hbc Hcd. unfold slice.
  replace (d - a) with ((b - a) + ((c - b) + (d - c))) by lia.
  rewrite substring_split. f_equal.
  replace (a + (b - a)) with b by lia.
  rewrite substring_split. f_equal.
  now replace (b + (c - b)) with c by lia.
Qed.

Lemma slice_empty (s : string) (a : nat) : slice s a a = "".
Proof. unfold slice. rewrite Nat.sub_diag. apply substring_zero. Qed.

Lemma get_lt (s : string) :
  forall i c, get i s = Some c -> i < length s.
Proof.
  induction s as [|d s IH]; intros i c H; simpl in *.
  - discriminate.
  - destruct i as [|i]; [lia|]. apply IH in H. lia.
Qed.

End StringFacts.

(** ** The pattern *)

Section PatternFacts.
Import Pattern.
Local Open Scope string_scope.

Lemma bar_is_syntax : isSyntaxCharacter "|" = true.
Proof. reflexivity. Qed.

Lemma backslash_is_syntax : isSyntaxCharacter "\" = true.
Proof. reflexivity. Qed.

Lemma plain_is_neither (c : ascii) :
  isSyntaxCharacter c = false ->
  Ascii.eqb c "\" = false /\ Ascii.eqb c "|" = false.
Proof.
  intros H. split.
  - destruct (Ascii.eqb_spec c "\"); [subst; discriminate|reflexivity].
  - destruct (Ascii.eqb_spec c "|"); [subst; discriminate|reflexivity].
Qed.

(** Reading an escaped word gives the word back. *)
Lemma readAlternatives_escape (w : string) :
  forall cur rest,
    readAlternatives cur (escapeRegExp w ++ rest)
    = readAlternatives (cur ++ w) rest.
Proof.
  induction w as [|c w IH]; intros cur rest; simpl.
  - now rewrite append_nil_r.
  - destruct (isSyntaxCharacter c) eqn:E; simpl.
    + rewrite E, IH. now rewrite append_assoc.
    + destruct (plain_is_neither c E) as [-> ->]. rewrite E, IH.
      now rewrite append_assoc.
Qed.

Lemma readAlternatives_bar (cur r : string) :
  readAlternatives cur (String "|" r)
  = match readAlternatives "" r with
    | Some alts => Some (cur :: alts)
    | None => None
    end.
Proof. reflexivity. Qed.

Lemma pattern_cons (w w' : string) (ws : list string) :
  pattern (w :: w' :: ws) = escapeRegExp w ++ String "|" (pattern (w' :: ws)).
Proof. reflexivity. Qed.

Lemma readAlternatives_pattern_from (ws : list string) :
  forall w cur,
    readAlternatives cur (pattern (w :: ws)) = Some ((cur ++ w) :: ws).
Proof.
  induction ws as [|w' ws IH]; intros w cur.
  - unfold pattern. simpl. rewrite <- (append_nil_r (escapeRegExp w)).
    now rewrite readAlternatives_escape.
  - rewrite pattern_cons, readAlternatives_escape, readAlternatives_bar.
    now rewrite IH.
Qed.

(** The alternation compiled from the escaped words is the list of the
    words themselves, whatever characters they hold: this is the list
    the matcher works with. *)
Lemma readAlternatives_pattern (w : string) (ws : list string) :
  readAlternatives "" (pattern (w :: ws)) = Some (w :: ws).
Proof. apply readAlternatives_pattern_from. Qed.

End PatternFacts.

(** ** The matcher *)

Section MatcherFacts.
Import Js Matcher.

Lemma literalAt_fits (w text : string) :
  forall i, i <= length text ->
    literalAt w text i = true -> i + length w <= length text.
Proof.
  induction w as [|c w IH]; intros i Hi H; simpl in *.
  - lia.
  - destruct (get i text) as [d|] eqn:G; [|discriminate].
    apply andb_true_iff in H as [_ H].
    apply get_lt in G. apply IH in H; lia.
Qed.

Lemma alternationAt_fits (ws : list string) (text : string) (i len : nat) :
  i <= length text ->
  alternationAt ws text i = Some len -> i + len <= length text.
Proof.
  intros Hi. induction ws as [|w ws IH]; simpl; [discriminate|].
  destruct (literalAt w text i && wordBoundary text (i + length w)) eqn:E.
  - intros [= <-]. apply andb_true_iff in E as [E _].
    now apply literalAt_fits.
  - exact IH.
Qed.

Lemma alternationAt_positive (ws : list string) (text : string) (i len : nat) :
  nonEmptyWords ws -> alternationAt ws text i = Some len -> 0 < len.
Proof.
  induction 1 as [|w ws Hw _ IH]; simpl; [discriminate|].
  destruct (literalAt w text i && wordBoundary text (i + length w)).
  - now intros [= <-].
  - exact IH.
Qed.

(** What a successful [exec] returns: the match starts at or after
    [lastIndex], lies inside the text and is the slice it covers. *)
Lemma search_spec (ws : list string) (text : string) :
  forall n i start m,
    i + n <= S (length text) ->
    search ws text i n = Some (start, m) ->
    i <= start /\ start + length m <= length text /\
    m = slice text start (start + length m) /\
    (nonEmptyWords ws -> 0 < length m).
Proof.
  induction n as [|n IH]; intros i start m Hn; simpl; [discriminate|].
  destruct (if wordBoundary text i then alternationAt ws text i else None)
    as [len|] eqn:E.
  - intros [= <- <-].
    assert (A : alternationAt ws text i = Some len)
      by (destruct (wordBoundary text i); [exact E|discriminate]).
    assert (F : i + len <= length text)
      by (apply alternationAt_fits with (ws := ws); [lia|exact A]).
    assert (L : length (slice text i (i + len)) = len).
    { unfold slice. replace (i + len - i) with len by lia.
      now apply length_substring. }
    rewrite L. repeat split; try lia.
    intros Hne. now apply alternationAt_positive with (1 := Hne) in A.
  - intros H. apply IH in H; [|lia].
    destruct H as (H1 & H2 & H3 & H4). repeat split; auto; lia.
Qed.

Lemma exec_spec (ws : list string) (text : string) (lastIndex start : nat)
      (m : string) :
  exec ws text lastIndex = Some (start, m) ->
  lastIndex <= start /\ start + length m <= length text /\
  m = slice text start (start + length m) /\
  (nonEmptyWords ws -> 0 < length m).
Proof.
  unfold exec. destruct (length text <? lastIndex) eqn:E; [discriminate|].
  apply Nat.ltb_ge in E. apply search_spec. lia.
Qed.

End MatcherFacts.

(** ** Fragments *)

Section FragmentFacts.
Import Js Dom Matcher Apply.
Local Open Scope string_scope.

Lemma textOf_app (a b : list node) :
  textOf (a ++ b)%list = textOf a ++ textOf b.
Proof. unfold textOf. now rewrite map_app, concatAll_app. Qed.

Lemma textOf_cons (n : node) (l : list node) :
  textOf (n :: l) = textContent n ++ textOf l.
Proof. reflexivity. Qed.

Lemma textOf_snoc (l : list node) (n : node) :
  textOf (l ++ [n])%list = textOf l ++ textContent n.
Proof.
  rewrite textOf_app. unfold textOf at 2. simpl. now rewrite append_nil_r.
Qed.

Lemma textContent_createSpan (m : string) : textContent (createSpan m) = m.
Proof. destruct m; reflexivity || (simpl; now rewrite append_nil_r). Qed.

Lemma isHighlight_createSpan (m : string) : isHighlight (createSpan m) = true.
Proof. reflexivity. Qed.

(** The loop keeps the text: what is in the fragment, followed by what
    is left of the text from [lastIndex], is constant. *)
Lemma execLoop_text (ws : list string) (text : string) :
  forall fuel lastIndex frag r,
    lastIndex <= length text ->
    execLoop fuel ws text lastIndex frag = Some r ->
    textOf r = textOf frag ++ slice text lastIndex (length text).
Proof.
  induction fuel as [|fuel IH]; intros li frag r Hli; simpl; [discriminate|].
  destruct (exec ws text li) as [[start m]|] eqn:E.
  - destruct (exec_spec _ _ _ _ _ E) as (H1 & H2 & H3 & _).
    intros H. apply IH in H; [|lia]. rewrite H.
    rewrite textOf_snoc, textContent_createSpan.
    rewrite <- (slice_three text li start (start + length m) (length text))
      by lia.
    rewrite <- H3.
    destruct (li <? start)%nat eqn:L.
    + rewrite textOf_snoc. cbn [textContent].
      now rewrite !append_assoc.
    + apply Nat.ltb_ge in L. assert (start = li) by lia. subst start.
      now rewrite slice_empty, !append_assoc.
  - intros [= <-]. destruct (li <? length text)%nat eqn:L.
    + now rewrite textOf_snoc.
    + apply Nat.ltb_ge in L. assert (li = length text) by lia. subst li.
      now rewrite slice_empty, append_nil_r.
Qed.

(** With no empty word in the alternation every match is at least one
    character long, and the loop comes to its end. *)
Lemma execLoop_total (ws : list string) (text : string) :
  nonEmptyWords ws ->
  forall fuel lastIndex frag,
    lastIndex <= length text ->
    length text - lastIndex < fuel ->
    exists r, execLoop fuel ws text lastIndex frag = Some r.
Proof.
  intros Hne. induction fuel as [|fuel IH]; intros li frag Hli Hf; [lia|].
  simpl. destruct (exec ws text li) as [[start m]|] eqn:E.
  - destruct (exec_spec _ _ _ _ _ E) as (H1 & H2 & _ & H4).
    specialize (H4 Hne). apply IH; lia.
  - eauto.
Qed.

(** More fuel does not change the outcome of a run that ends. *)
Lemma execLoop_fuel (ws : list string) (text : string) :
  forall fuel extra lastIndex frag r,
    execLoop fuel ws text lastIndex frag = Some r ->
    execLoop (fuel + extra) ws text lastIndex frag = Some r.
Proof.
  induction fuel as [|fuel IH]; intros extra li frag r; simpl; [discriminate|].
  destruct (exec ws text li) as [[start m]|]; auto.
Qed.

(** A run that meets an empty match never ends: the next call of [exec]
    starts where this one started. *)
Lemma execLoop_stuck (ws : list string) (text : string) (lastIndex : nat) :
  exec ws text lastIndex = Some (lastIndex, "") ->
  forall fuel frag, execLoop fuel ws text lastIndex frag = None.
Proof.
  intros E. induction fuel as [|fuel IH]; intros frag; simpl; [reflexivity|].
  rewrite E. simpl length. rewrite Nat.add_0_r. apply IH.
Qed.

(** The fuel of [buildFragment] is enough for every run that ends: when
    [buildFragment] is [None], the loop of the source does not end. *)
Lemma execLoop_complete (ws : list string) (text : string) :
  forall fuel lastIndex frag r,
    lastIndex <= length text ->
    execLoop fuel ws text lastIndex frag = Some r ->
    execLoop (S (length text - lastIndex)) ws text lastIndex frag = Some r.
Proof.
  induction fuel as [|fuel IH]; intros li frag r Hli; [discriminate|].
  simpl. destruct (exec ws text li) as [[start m]|] eqn:E; [|auto].
  destruct (exec_spec _ _ _ _ _ E) as (H1 & H2 & H3 & _).
  intros H.
  destruct (Nat.eq_dec (start + length m) li) as [Heq|Hne].
  - assert (start = li) by lia. subst start.
    assert (length m = 0) by lia.
    assert (m = "") by (destruct m; [reflexivity|discriminate]). subst m.
    simpl in H. rewrite Nat.add_0_r in H.
    now rewrite (execLoop_stuck _ _ _ E) in H.
  - apply IH in H; [|lia].
    replace (length text - li) with (S (length text - (start + length m)) + (start + length m - li - 1)) by lia.
    now apply execLoop_fuel.
Qed.

Lemma buildFragment_complete (ws : list string) (text : string)
      (fuel : nat) (r : list node) :
  execLoop fuel ws text 0 [] = Some r -> buildFragment ws text = Some r.
Proof.
  intros H. apply execLoop_complete in H; [|lia].
  unfold buildFragment. now rewrite Nat.sub_0_r in H.
Qed.

Lemma execLoop_pieces (ws : list string) (text : string) :
  forall fuel lastIndex frag r,
    Forall piece frag ->
    execLoop fuel ws text lastIndex frag = Some r -> Forall piece r.
Proof.
  induction fuel as [|fuel IH]; intros li frag r Hf; simpl; [discriminate|].
  destruct (exec ws text li) as [[start m]|].
  - apply IH. apply Forall_app; split.
    + destruct (li <? start)%nat; [apply Forall_app; split|]; auto.
      repeat constructor.
    + repeat constructor.
  - intros [= <-]. destruct (li <? length text)%nat; auto.
    apply Forall_app; split; auto. repeat constructor.
Qed.

Lemma execLoop_keeps_span (ws : list string) (text : string) :
  forall fuel lastIndex frag r,
    existsb isHighlight frag = true ->
    execLoop fuel ws text lastIndex frag = Some r ->
    existsb isHighlight r = true.
Proof.
  induction fuel as [|fuel IH]; intros li frag r Hf; simpl; [discriminate|].
  destruct (exec ws text li) as [[start m]|].
  - apply IH. rewrite existsb_app. simpl. now rewrite orb_true_r.
  - intros [= <-]. destruct (li <? length text)%nat; auto.
    rewrite existsb_app, Hf. reflexivity.
Qed.

(** A text node on which [regex.test] succeeded gets at least one span. *)
Lemma buildFragment_has_span (ws : list string) (text : string) (r : list node) :
  test ws text = true ->
  buildFragment ws text = Some r -> existsb isHighlight r = true.
Proof.
  unfold test, buildFragment. simpl.
  destruct (exec ws text 0) as [[start m]|]; [intros _|discriminate].
  apply execLoop_keeps_span.
  rewrite existsb_app. simpl. now rewrite orb_true_r.
Qed.

Lemma buildFragment_total (ws : list string) (text : string) :
  nonEmptyWords ws -> exists r, buildFragment ws text = Some r.
Proof. intros H. apply execLoop_total; auto; lia. Qed.

Lemma buildFragment_text (ws : list string) (text : string) (r : list node) :
  buildFragment ws text = Some r -> textOf r = text.
Proof.
  intros H. apply execLoop_text in H; [|lia]. rewrite H.
  unfold slice. rewrite Nat.sub_0_r. simpl. apply substring_all.
Qed.

Lemma replaceText_total (ws : list string) (text : string) :
  nonEmptyWords ws -> exists r, replaceText ws text = Some r.
Proof.
  intros H. unfold replaceText.
  destruct (isEmpty text); [eauto|].
  destruct (negb (test ws text)); [eauto|].
  now apply buildFragment_total.
Qed.

Lemma replaceText_text (ws : list string) (text : string) (r : list node) :
  replaceText ws text = Some r -> textOf r = text.
Proof.
  unfold replaceText.
  destruct (isEmpty text);
    [intros [= <-]; unfold textOf; simpl; apply append_nil_r|].
  destruct (negb (test ws text));
    [intros [= <-]; unfold textOf; simpl; apply append_nil_r|].
  apply buildFragment_text.
Qed.

End FragmentFacts.

(** ** The word list *)

Section WordFacts.
Import Js Apply.

Lemma setAdd_In (seen : list string) (w x : string) :
  In x (setAdd seen w) <-> In x seen \/ x = w.
Proof.
  unfold setAdd. destruct (existsb (String.eqb w) seen) eqn:E.
  - split; [auto|]. intros [H | ->]; [exact H|].
    apply existsb_exists in E as (y & Hy & Hyw).
    apply String.eqb_eq in Hyw. now subst.
  - rewrite in_app_iff. simpl. intuition.
Qed.

Lemma setAdd_NoDup (seen : list string) (w : string) :
  NoDup seen -> NoDup (setAdd seen w).
Proof.
  intros H. unfold setAdd. destruct (existsb (String.eqb w) seen) eqn:E; auto.
  apply NoDup_app; auto.
  - repeat constructor; simpl; tauto.
  - intros x Hx [E' | []]. subst x.
    assert (existsb (String.eqb w) seen = true); [|congruence].
    apply existsb_exists. exists w. split; auto. apply String.eqb_refl.
Qed.

Lemma fold_setAdd_In (l : list string) :
  forall acc x, In x (fold_left setAdd l acc) <-> In x acc \/ In x l.
Proof.
  induction l as [|w l IH]; intros acc x; simpl.
  - tauto.
  - rewrite IH, setAdd_In. intuition.
Qed.

Lemma fold_setAdd_NoDup (l : list string) :
  forall acc, NoDup acc -> NoDup (fold_left setAdd l acc).
Proof.
  induction l as [|w l IH]; intros acc H; simpl; auto.
  apply IH. now apply setAdd_NoDup.
Qed.

Lemma arrayFromSet_In (l : list string) (x : string) :
  In x (arrayFromSet l) <-> In x l.
Proof. unfold arrayFromSet. rewrite fold_setAdd_In. simpl. tauto. Qed.

Lemma arrayFromSet_NoDup (l : list string) : NoDup (arrayFromSet l).
Proof. apply fold_setAdd_NoDup. constructor. Qed.

(** The words compiled into the alternation are the trimmed words of the
    vocabulary that are not empty. *)
Lemma words_In (vocabulary : list VocabItem) (w : string) :
  In w (words vocabulary) <->
  0 < length w /\ exists item, In item vocabulary /\ trim (word item) = w.
Proof.
  unfold words. rewrite arrayFromSet_In, filter_In, in_map_iff.
  rewrite Nat.ltb_lt. split.
  - intros [(item & E & I) L]. split; [exact L|]. exists item. auto.
  - intros [L (item & I & E)]. split; [|exact L]. exists item. auto.
Qed.

Lemma words_nonEmpty (vocabulary : list VocabItem) :
  nonEmptyWords (words vocabulary).
Proof.
  apply Forall_forall. intros w H. now apply words_In in H as [H _].
Qed.

(** A vocabulary of blank words compiles to no word at all. *)
Lemma words_blank (vocabulary : list VocabItem) :
  (forall item, In item vocabulary -> trim (word item) = EmptyString) ->
  words vocabulary = [].
Proof.
  intros H. destruct (words vocabulary) as [|w ws] eqn:E; [reflexivity|].
  assert (I : In w (words vocabulary)) by (rewrite E; now left).
  apply words_In in I as [L (item & I & T)].
  rewrite (H item I) in T. subst w. simpl in L. lia.
Qed.

End WordFacts.

(** ** The apply pass over the tree *)

Section ApplyFacts.
Import Js Dom Apply.

Lemma sequence_text (f : node -> option (list node)) (kids : list node) :
  Forall (fun k => forall r, f k = Some r -> textOf r = textContent k) kids ->
  forall r, sequence (map f kids) = Some r -> textOf r = textOf kids.
Proof.
  induction 1 as [|k kids Hk _ IH]; simpl; intros r.
  - now intros [= <-].
  - destruct (f k) as [a|] eqn:A; [|discriminate].
    destruct (sequence (map f kids)) as [b|]; [|discriminate].
    intros [= <-]. rewrite textOf_app, textOf_cons.
    now rewrite (Hk a eq_refl), (IH b eq_refl).
Qed.

Lemma sequence_total (f : node -> option (list node)) (kids : list node) :
  Forall (fun k => exists r, f k = Some r) kids ->
  exists r, sequence (map f kids) = Some r.
Proof.
  induction 1 as [|k kids [a A] _ [b B]]; simpl; [eauto|].
  rewrite A, B. eauto.
Qed.

Lemma applyNode_text (ws : list string) (n : node) :
  forall inHighlight parentTag r,
    applyNode ws inHighlight parentTag n = Some r ->
    textOf r = textContent n.
Proof.
  induction n as [s|s|t a kids IH] using node_induction; intros inH tag r; simpl.
  - destruct (inH || isScriptOrStyle tag).
    + intros [= <-]. unfold textOf. simpl. apply append_nil_r.
    + apply replaceText_text.
  - intros [= <-]. reflexivity.
  - destruct (sequence (map (applyNode ws (inH || hasClass "vocab-highlight" a) t) kids))
      as [kids'|] eqn:E; [|discriminate].
    intros [= <-]. unfold textOf at 1. simpl. rewrite append_nil_r.
    change (textOf kids' = textOf kids).
    apply sequence_text with (2 := E).
    apply Forall_impl with (2 := IH). intros k Hk r. apply Hk.
Qed.

Lemma applyNode_total (ws : list string) (n : node) :
  nonEmptyWords ws ->
  forall inHighlight parentTag,
    exists r, applyNode ws inHighlight parentTag n = Some r.
Proof.
  intros Hne. induction n as [s|s|t a kids IH] using node_induction; intros inH tag; simpl.
  - destruct (inH || isScriptOrStyle tag); [eauto|].
    now apply replaceText_total.
  - eauto.
  - destruct (sequence_total (applyNode ws (inH || hasClass "vocab-highlight" a) t)
                             kids) as [r R].
    + apply Forall_impl with (2 := IH). intros k Hk. apply Hk.
    + rewrite R. eauto.
Qed.

Lemma applyKids_text (ws : list string) (kids : list node) :
  forall inHighlight parentTag r,
    applyKids ws inHighlight parentTag kids = Some r ->
    textOf r = textOf kids.
Proof.
  intros inH tag r. unfold applyKids. apply sequence_text.
  apply Forall_forall. intros k _ r'. apply applyNode_text.
Qed.

Lemma applyKids_total (ws : list string) (kids : list node) :
  nonEmptyWords ws ->
  forall inHighlight parentTag,
    exists r, applyKids ws inHighlight parentTag kids = Some r.
Proof.
  intros Hne inH tag. unfold applyKids. apply sequence_total.
  apply Forall_forall. intros k _. now apply applyNode_total.
Qed.

End ApplyFacts.

(** ** Normalization *)

Section NormalizeFacts.
Import Js Dom Clear.

Lemma merged_fixed (kids : list node) :
  merged kids = true -> mergeText kids = kids.
Proof.
  induction kids as [|k kids IH]; simpl; [reflexivity|].
  destruct k as [s| |]; try (intros H; now rewrite IH).
  intros H. apply andb_true_iff in H as [H Hm].
  apply andb_true_iff in H as [Hs Hn].
  rewrite (IH Hm). destruct (isEmpty s); [discriminate|].
  destruct kids as [|[]]; simpl in *; congruence.
Qed.

Lemma isEmpty_append (a b : string) :
  isEmpty a = false -> isEmpty (a ++ b) = false.
Proof. destruct a; simpl; congruence. Qed.

Lemma mergeText_merged (kids : list node) : merged (mergeText kids) = true.
Proof.
  induction kids as [|k kids IH]; simpl; [reflexivity|].
  destruct k as [s| |]; simpl; auto.
  destruct (isEmpty s) eqn:E; [exact IH|].
  destruct (mergeText kids) as [|[s'| |] rest]; simpl in *;
    rewrite ?E; simpl; auto.
  apply andb_true_iff in IH as [IH Hm].
  apply andb_true_iff in IH as [_ Hn].
  now rewrite (isEmpty_append _ s' E), Hn, Hm.
Qed.

Lemma mergeText_idem (kids : list node) :
  mergeText (mergeText kids) = mergeText kids.
Proof. apply merged_fixed, mergeText_merged. Qed.

(** Only the merged form of what follows matters. *)
Lemma mergeText_cons_r (k : node) (kids : list node) :
  mergeText (k :: mergeText kids) = mergeText (k :: kids).
Proof. destruct k; simpl; now rewrite mergeText_idem. Qed.

Lemma mergeText_app_r (a b : list node) :
  mergeText (a ++ mergeText b) = mergeText (a ++ b).
Proof.
  induction a as [|k a IH]; simpl app.
  - apply mergeText_idem.
  - now rewrite <- mergeText_cons_r, IH, mergeText_cons_r.
Qed.

Lemma mergeText_join (s s' : string) (kids : list node) :
  mergeText (Text s :: Text s' :: kids) = mergeText (Text (s ++ s') :: kids).
Proof.
  destruct s as [|c s]; [reflexivity|].
  destruct s' as [|c' s'].
  - simpl. now rewrite append_nil_r.
  - simpl. destruct (mergeText kids) as [|[x| |] rest]; try reflexivity.
    now rewrite append_assoc.
Qed.

(** A run of text nodes merges like the one text node of their text. *)
Lemma mergeText_pieces (pieces kids : list node) :
  forallb isText pieces = true ->
  mergeText (pieces ++ kids) = mergeText (Text (textOf pieces) :: kids).
Proof.
  induction pieces as [|p pieces IH]; intros H.
  - reflexivity.
  - simpl in H. apply andb_true_iff in H as [Hp H].
    destruct p as [s| |]; try discriminate.
    simpl app. rewrite <- mergeText_cons_r, (IH H), mergeText_cons_r.
    now rewrite mergeText_join.
Qed.

Lemma refines_mergeText (fine coarse : list node) :
  refines fine coarse -> mergeText fine = mergeText coarse.
Proof.
  induction 1 as [|k fine coarse _ IH|pieces s fine coarse Hp Hs _ IH].
  - reflexivity.
  - now rewrite <- mergeText_cons_r, IH, mergeText_cons_r.
  - rewrite <- mergeText_app_r, IH, mergeText_app_r.
    rewrite (mergeText_pieces _ _ Hp). now subst s.
Qed.

Lemma mergeText_map_inner (g : node -> node) (kids : list node) :
  keepsText g ->
  mergeText (map g (mergeText kids)) = mergeText (map g kids).
Proof.
  intros Hg. induction kids as [|k kids IH]; [reflexivity|].
  assert (step : forall x, mergeText (map g (x :: mergeText kids))
                           = mergeText (map g (x :: kids))).
  { intros x. simpl map.
    now rewrite <- mergeText_cons_r, IH, mergeText_cons_r. }
  destruct k as [s| |]; try apply step.
  rewrite <- step. simpl mergeText at 2.
  destruct (isEmpty s) eqn:E.
  - apply isEmpty_true in E. subst s. simpl map. rewrite Hg. reflexivity.
  - destruct (mergeText kids) as [|[s'| |] rest]; try reflexivity.
    simpl map. rewrite !Hg. symmetry. apply mergeText_join.
Qed.

Lemma mergeText_map_outer (g : node -> node) (kids : list node) :
  keepsShape g -> mergeText (map g kids) = map g (mergeText kids).
Proof.
  intros [Hg Hn]. induction kids as [|k kids IH]; [reflexivity|].
  destruct k as [s| |].
  - simpl. rewrite Hg. simpl. destruct (isEmpty s); [exact IH|].
    rewrite IH. destruct (mergeText kids) as [|[s'| |] rest]; simpl;
      rewrite ?Hg; try reflexivity.
    + specialize (Hn (Comment data) eq_refl).
      destruct (g (Comment data)); [discriminate|reflexivity..].
    + specialize (Hn (Elem tagName attrs childNodes) eq_refl).
      destruct (g (Elem tagName attrs childNodes)); [discriminate|reflexivity..].
  - simpl. specialize (Hn (Comment data) eq_refl).
    destruct (g (Comment data)); [discriminate|..]; simpl; now rewrite IH.
  - simpl. specialize (Hn (Elem tagName attrs childNodes) eq_refl).
    destruct (g (Elem tagName attrs childNodes)); [discriminate|..];
      simpl; now rewrite IH.
Qed.

Lemma merged_map (g : node -> node) (kids : list node) :
  keepsShape g -> merged (map g kids) = merged kids.
Proof.
  intros [Hg Hn]. induction kids as [|k kids IH]; [reflexivity|].
  assert (S : startsWithText (map g kids) = startsWithText kids).
  { destruct kids as [|[| |] ?]; simpl; rewrite ?Hg; try reflexivity;
      now apply Hn. }
  destruct k as [s| |].
  - simpl. rewrite Hg. simpl. now rewrite IH, S.
  - simpl. specialize (Hn (Comment data) eq_refl).
    destruct (g (Comment data)); [discriminate|..]; exact IH.
  - simpl. specialize (Hn (Elem tagName attrs childNodes) eq_refl).
    destruct (g (Elem tagName attrs childNodes)); [discriminate|..]; exact IH.
Qed.

Lemma Forall_mergeText (P : node -> Prop) (kids : list node) :
  (forall s, P (Text s)) -> Forall P kids -> Forall P (mergeText kids).
Proof.
  intros HT. induction 1 as [|k kids Hk _ IH]; simpl; [constructor|].
  destruct k as [s| |]; try (constructor; assumption).
  destruct (isEmpty s); [exact IH|].
  destruct (mergeText kids) as [|[s'| |] rest]; constructor; auto;
    now inversion IH.
Qed.

Lemma normalizeNode_shape : keepsShape normalizeNode.
Proof. split; [intros s; reflexivity|]. intros [| |]; simpl; congruence. Qed.

Lemma isHighlight_normalizeNode (n : node) :
  isHighlight (normalizeNode n) = isHighlight n.
Proof. destruct n; reflexivity. Qed.

Lemma mergeText_text (kids : list node) : textOf (mergeText kids) = textOf kids.
Proof.
  induction kids as [|k kids IH]; [reflexivity|].
  destruct k as [s| |]; simpl mergeText;
    try (rewrite !textOf_cons; now rewrite IH).
  destruct (isEmpty s) eqn:E.
  - apply isEmpty_true in E. subst s. now rewrite IH.
  - rewrite textOf_cons, <- IH.
    destruct (mergeText kids) as [|[s'| |] rest]; rewrite !textOf_cons;
      simpl textContent; try reflexivity.
    now rewrite append_assoc.
Qed.

Lemma normalizeNode_text (n : node) :
  textContent (normalizeNode n) = textContent n.
Proof.
  induction n as [s|s|t a kids IH] using node_induction; try reflexivity.
  simpl. change (textOf (mergeText (map normalizeNode kids)) = textOf kids).
  rewrite mergeText_text. unfold textOf. f_equal.
  rewrite map_map. apply map_ext_Forall. exact IH.
Qed.

Lemma normalize_text (kids : list node) : textOf (normalize kids) = textOf kids.
Proof.
  unfold normalize. rewrite mergeText_text. unfold textOf. f_equal.
  rewrite map_map. apply map_ext_in. intros k _. apply normalizeNode_text.
Qed.

Lemma normalizeNode_fixed (n : node) :
  isNormalizedNode n = true -> normalizeNode n = n.
Proof.
  induction n as [s|s|t a kids IH] using node_induction; try reflexivity.
  simpl. intros H. apply andb_true_iff in H as [Hm Hk]. f_equal.
  replace (map normalizeNode kids) with kids; [now apply merged_fixed|].
  symmetry. rewrite <- (map_id kids) at 2. apply map_ext_Forall.
  rewrite forallb_forall in Hk. rewrite Forall_forall in *. auto.
Qed.

Lemma normalize_fixed (kids : list node) :
  isNormalized kids = true -> normalize kids = kids.
Proof.
  intros H. apply andb_true_iff in H as [Hm Hk]. unfold normalize.
  replace (map normalizeNode kids) with kids; [now apply merged_fixed|].
  symmetry. rewrite <- (map_id kids) at 2. apply map_ext_in.
  rewrite forallb_forall in Hk. intros k Hin. now apply normalizeNode_fixed, Hk.
Qed.

Lemma normalizeNode_normalized (n : node) :
  isNormalizedNode (normalizeNode n) = true.
Proof.
  induction n as [s|s|t a kids IH] using node_induction; try reflexivity.
  simpl. rewrite mergeText_merged. simpl.
  apply forallb_forall. apply Forall_forall.
  apply Forall_mergeText; [reflexivity|].
  apply Forall_map. exact IH.
Qed.

Lemma normalize_normalized (kids : list node) :
  isNormalized (normalize kids) = true.
Proof.
  unfold isNormalized, normalize. rewrite mergeText_merged. simpl.
  apply forallb_forall. apply Forall_forall.
  apply Forall_mergeText; [reflexivity|].
  apply Forall_map. apply Forall_forall. intros k _.
  apply normalizeNode_normalized.
Qed.

Lemma normalize_idem (kids : list node) :
  normalize (normalize kids) = normalize kids.
Proof. apply normalize_fixed, normalize_normalized. Qed.

End NormalizeFacts.

(** ** The clear loop and its description by recursion *)

Section ClearFacts.
Import Js Dom Clear.


Lemma clearNode_shape : keepsShape clearNode.
Proof. split; [intros s; reflexivity|]. intros [| |]; simpl; congruence. Qed.

Lemma cc_text : keepsText (clearChild clearNode).
Proof. intros s. reflexivity. Qed.

Lemma rc_text : keepsText (clearChild replaceIn).
Proof. intros s. reflexivity. Qed.

Lemma clearChild_hit (below : node -> node) (k : node) :
  isHighlight k = true -> clearChild below k = Text (textContent k).
Proof. unfold clearChild. now intros ->. Qed.

Lemma clearChild_miss (below : node -> node) (k : node) :
  isHighlight k = false -> clearChild below k = below k.
Proof. unfold clearChild. now intros ->. Qed.

Lemma map_cc_plain (kids : list node) :
  existsb isHighlight kids = false -> map (clearChild clearNode) kids = map clearNode kids.
Proof.
  intros H. apply map_ext_in. intros k Hk. unfold clearChild.
  destruct (isHighlight k) eqn:E; [|reflexivity].
  assert (existsb isHighlight kids = true); [|congruence].
  apply existsb_exists. eauto.
Qed.

Lemma clearNode_Elem (t : string) (a : list (string * string)) (kids : list node) :
  clearNode (Elem t a kids) = Elem t a (clearKids kids).
Proof. reflexivity. Qed.

Lemma normalize_map_ext (f g : node -> node) (kids : list node) :
  Forall (fun k => normalizeNode (f k) = normalizeNode (g k)) kids ->
  normalize (map f kids) = normalize (map g kids).
Proof.
  intros H. unfold normalize. rewrite !map_map. f_equal.
  now apply map_ext_Forall.
Qed.

Lemma normalize_clearKids (kids : list node) :
  normalize (clearKids kids) = normalize (map (clearChild clearNode) kids).
Proof.
  unfold clearKids. destruct (existsb isHighlight kids); [|reflexivity].
  apply normalize_idem.
Qed.

(** Normalization absorbs the normalizations made on the way. *)
Lemma normalize_clearNode (n : node) :
  normalizeNode (clearNode n) = normalizeNode (replaceIn n).
Proof.
  induction n as [s|s|t a kids IH] using node_induction; try reflexivity.
  rewrite clearNode_Elem. simpl. f_equal.
  change (normalize (clearKids kids) = normalize (map (clearChild replaceIn) kids)).
  rewrite normalize_clearKids. apply normalize_map_ext.
  apply Forall_impl with (2 := IH). intros k Hk. unfold clearChild.
  now destruct (isHighlight k).
Qed.

Lemma normalize_map_cc (kids : list node) :
  normalize (map (clearChild clearNode) kids) = normalize (replaceAll kids).
Proof.
  apply normalize_map_ext. apply Forall_forall. intros k _.
  unfold clearChild. destruct (isHighlight k); [reflexivity|].
  apply normalize_clearNode.
Qed.

Lemma normalize_replaceAll_from (kids : list node) :
  Forall (fun k => normalizeNode (replaceIn (normalizeNode k))
                   = normalizeNode (replaceIn k)) kids ->
  normalize (replaceAll (normalize kids)) = normalize (replaceAll kids).
Proof.
  intros IH. unfold normalize, replaceAll. rewrite !map_map.
  rewrite mergeText_map_inner by (intros s; reflexivity).
  rewrite map_map. f_equal. apply map_ext_Forall.
  apply Forall_impl with (2 := IH). intros k Hk. unfold clearChild.
  rewrite isHighlight_normalizeNode, normalizeNode_text.
  now destruct (isHighlight k).
Qed.

Lemma normalize_replaceIn (n : node) :
  normalizeNode (replaceIn (normalizeNode n)) = normalizeNode (replaceIn n).
Proof.
  induction n as [s|s|t a kids IH] using node_induction; try reflexivity.
  change (Elem t a (normalize (replaceAll (normalize kids)))
          = Elem t a (normalize (replaceAll kids))).
  f_equal. now apply normalize_replaceAll_from.
Qed.

Lemma normalize_replaceAll (kids : list node) :
  normalize (replaceAll (normalize kids)) = normalize (replaceAll kids).
Proof.
  apply normalize_replaceAll_from. apply Forall_forall. intros k _.
  apply normalize_replaceIn.
Qed.

(** Clearing keeps a normalized tree normalized. *)
Lemma clearKids_normalized_from (kids : list node) :
  Forall (fun k => isNormalizedNode k = true ->
                   isNormalizedNode (clearNode k) = true) kids ->
  isNormalized kids = true -> isNormalized (clearKids kids) = true.
Proof.
  intros IH H. unfold clearKids.
  destruct (existsb isHighlight kids) eqn:E; [apply normalize_normalized|].
  rewrite (map_cc_plain _ E).
  apply andb_true_iff in H as [Hm Hk]. unfold isNormalized.
  rewrite (merged_map clearNode kids clearNode_shape), Hm. simpl.
  rewrite forallb_forall in Hk. apply forallb_forall. intros k' Hin.
  apply in_map_iff in Hin as (k & <- & Hin).
  rewrite Forall_forall in IH. auto.
Qed.

Lemma clearNode_normalized (n : node) :
  isNormalizedNode n = true -> isNormalizedNode (clearNode n) = true.
Proof.
  induction n as [s|s|t a kids IH] using node_induction; try reflexivity.
  rewrite clearNode_Elem. apply (clearKids_normalized_from kids IH).
Qed.

Lemma clearKids_normalized (kids : list node) :
  isNormalized kids = true -> isNormalized (clearKids kids) = true.
Proof.
  apply clearKids_normalized_from. apply Forall_forall. intros k _.
  apply clearNode_normalized.
Qed.

(** Clearing a list that has just been normalized. *)
Lemma clearKids_normalize (kids : list node) :
  clearKids (normalize kids) = normalize (map (clearChild clearNode) kids).
Proof.
  rewrite <- (normalize_fixed (clearKids (normalize kids)))
    by apply clearKids_normalized, normalize_normalized.
  rewrite normalize_clearKids, !normalize_map_cc.
  apply normalize_replaceAll.
Qed.

(** *** Counting the highlight elements *)

Lemma querySelectorAll_app (a b : list node) :
  querySelectorAll (a ++ b) = querySelectorAll a ++ querySelectorAll b.
Proof. apply flat_map_app. Qed.

Lemma querySelectorAll_mergeText (kids : list node) :
  querySelectorAll (mergeText kids) = querySelectorAll kids.
Proof.
  induction kids as [|k kids IH]; [reflexivity|].
  destruct k as [s| |]; simpl; try now rewrite IH.
  destruct (isEmpty s); [exact IH|].
  rewrite <- IH. now destruct (mergeText kids) as [|[| |] rest].
Qed.

Lemma count_map (g : node -> node) (kids : list node) :
  Forall (fun k => List.length (selectIn (g k)) = List.length (selectIn k)) kids ->
  List.length (querySelectorAll (map g kids))
  = List.length (querySelectorAll kids).
Proof.
  induction 1 as [|k kids Hk _ IH]; [reflexivity|].
  simpl. rewrite !length_app. congruence.
Qed.

Lemma count_normalizeNode (n : node) :
  List.length (selectIn (normalizeNode n)) = List.length (selectIn n).
Proof.
  induction n as [s|s|t a kids IH] using node_induction; try reflexivity.
  change (List.length ((if hasClass "vocab-highlight" a
                        then [Elem t a (normalize kids)] else [])
                       ++ querySelectorAll (mergeText (map normalizeNode kids)))
          = List.length ((if hasClass "vocab-highlight" a
                          then [Elem t a kids] else [])
                         ++ querySelectorAll kids)).
  rewrite !length_app, querySelectorAll_mergeText, (count_map normalizeNode kids IH).
  now destruct (hasClass "vocab-highlight" a).
Qed.

Lemma count_normalize (kids : list node) :
  List.length (querySelectorAll (normalize kids))
  = List.length (querySelectorAll kids).
Proof.
  unfold normalize. rewrite querySelectorAll_mergeText. apply count_map.
  apply Forall_forall. intros k _. apply count_normalizeNode.
Qed.

Lemma selectIn_highlight (k : node) :
  isHighlight k = true -> 0 < List.length (selectIn k).
Proof.
  destruct k as [| |t a kids]; try discriminate.
  simpl. intros ->. simpl. lia.
Qed.

Lemma selectIn_nil_plain (k : node) : selectIn k = [] -> isHighlight k = false.
Proof.
  destruct k as [| |t a kids]; try reflexivity.
  simpl. now destruct (hasClass "vocab-highlight" a).
Qed.

(** *** One step of the loop *)

Lemma firstHit_cases (below : node -> option node) (kids : list node) :
  match firstHit below kids with
  | Some (true, kids') =>
      exists pre k post,
        kids = pre ++ k :: post /\ isHighlight k = true /\
        kids' = pre ++ Text (textContent k) :: post
  | Some (false, kids') =>
      exists pre k k' post,
        kids = pre ++ k :: post /\ isHighlight k = false /\
        below k = Some k' /\ kids' = pre ++ k' :: post
  | None => Forall (fun k => isHighlight k = false /\ below k = None) kids
  end.
Proof.
  induction kids as [|k kids IH]; simpl; [constructor|].
  destruct (isHighlight k) eqn:E.
  - exists [], k, kids. auto.
  - destruct (below k) as [k'|] eqn:B.
    + exists [], k, k', kids. auto.
    + destruct (firstHit below kids) as [[[|] kids']|].
      * destruct IH as (pre & x & post & -> & H & ->).
        exists (k :: pre), x, post. auto.
      * destruct IH as (pre & x & x' & post & -> & H & H' & ->).
        exists (k :: pre), x, x', post. auto.
      * constructor; auto.
Qed.

Lemma stepKids_from (kids : list node) :
  Forall stepFact kids ->
  (forall kids', stepKids kids = Some kids' ->
                 clearKids kids' = clearKids kids /\
                 List.length (querySelectorAll kids')
                 < List.length (querySelectorAll kids)) /\
  (stepKids kids = None -> querySelectorAll kids = []).
Proof.
  intros IH. unfold stepKids.
  pose proof (firstHit_cases stepNode kids) as C.
  destruct (firstHit stepNode kids) as [[[|] kids1]|]; simpl.
  - destruct C as (pre & k & post & -> & Hk & ->).
    split; [|discriminate]. intros kids' [= <-]. split.
    + rewrite clearKids_normalize. unfold clearKids.
      rewrite existsb_app. simpl. rewrite Hk, orb_true_r.
      f_equal. rewrite !map_app. simpl.
      now rewrite cc_text, (clearChild_hit clearNode k Hk).
    + rewrite count_normalize, !querySelectorAll_app. simpl.
      rewrite !length_app. apply selectIn_highlight in Hk. lia.
  - destruct C as (pre & k & k' & post & -> & Hk & Hs & ->).
    split; [|discriminate]. intros kids' [= <-].
    apply Forall_app in IH as [_ IH]. inversion IH as [|? ? [F _] _]; subst.
    destruct (F _ Hs) as (F1 & F2 & F3). split.
    + unfold clearKids. rewrite !existsb_app, !map_app. simpl.
      rewrite Hk in F1.
      now rewrite (clearChild_miss clearNode k Hk),
        (clearChild_miss clearNode k' F1), F1, Hk, F2.
    + rewrite !querySelectorAll_app. simpl. rewrite !length_app. lia.
  - split; [discriminate|]. intros _.
    unfold querySelectorAll. induction C as [|k kids [Hk Hs] _ IHC]; [reflexivity|].
    inversion IH as [|? ? [_ F] IH']; subst. simpl.
    now rewrite (F Hs Hk), (IHC IH').
Qed.

Lemma stepNode_fact (n : node) : stepFact n.
Proof.
  induction n as [s|s|t a kids IH] using node_induction;
    try (split; [discriminate|reflexivity]).
  destruct (stepKids_from kids IH) as [S N]. split.
  - intros n'. simpl. fold (stepKids kids).
    destruct (stepKids kids) as [kids'|]; [|discriminate].
    intros [= <-]. destruct (S kids' eq_refl) as [S1 S2].
    rewrite !clearNode_Elem, S1. repeat split.
    simpl. rewrite !length_app.
    fold (querySelectorAll kids') (querySelectorAll kids).
    destruct (hasClass "vocab-highlight" a); simpl; lia.
  - simpl. fold (stepKids kids).
    destruct (stepKids kids) as [kids'|]; [discriminate|].
    intros _ ->. apply (N eq_refl).
Qed.

Lemma stepKids_some (kids kids' : list node) :
  stepKids kids = Some kids' ->
  clearKids kids' = clearKids kids /\
  List.length (querySelectorAll kids') < List.length (querySelectorAll kids).
Proof.
  apply stepKids_from. apply Forall_forall. intros k _. apply stepNode_fact.
Qed.

Lemma stepKids_none (kids : list node) :
  stepKids kids = None -> querySelectorAll kids = [].
Proof.
  apply stepKids_from. apply Forall_forall. intros k _. apply stepNode_fact.
Qed.

(** *** A document without highlight elements *)

Lemma clearKids_plain_from (kids : list node) :
  Forall (fun k => selectIn k = [] -> clearNode k = k) kids ->
  querySelectorAll kids = [] -> clearKids kids = kids.
Proof.
  intros IH H.
  assert (A : existsb isHighlight kids = false /\ map (clearChild clearNode) kids = kids).
  { induction IH as [|k kids Hk _ IHk]; [split; reflexivity|].
    apply app_eq_nil in H as [H1 H2]. destruct (IHk H2) as [E M].
    cbn [existsb map].
    rewrite (clearChild_miss clearNode k (selectIn_nil_plain _ H1)).
    rewrite (selectIn_nil_plain _ H1), E, M, (Hk H1). split; reflexivity. }
  destruct A as [E M]. unfold clearKids. now rewrite E, M.
Qed.

Lemma clearNode_plain (n : node) : selectIn n = [] -> clearNode n = n.
Proof.
  induction n as [s|s|t a kids IH] using node_induction; try reflexivity.
  intros H. rewrite clearNode_Elem. f_equal.
  apply clearKids_plain_from; [exact IH|].
  simpl in H. now apply app_eq_nil in H as [_ H].
Qed.

Lemma clearKids_plain (kids : list node) :
  querySelectorAll kids = [] -> clearKids kids = kids.
Proof.
  apply clearKids_plain_from. apply Forall_forall. intros k _.
  apply clearNode_plain.
Qed.

(** *** The loop computes [clearKids] *)

Lemma clearKids_loop_fuel (spans : list node) :
  forall kids,
    List.length (querySelectorAll kids) <= List.length spans ->
    fold_left (fun b _ => replaceNext b) spans kids = clearKids kids.
Proof.
  induction spans as [|span spans IH]; intros kids H; simpl in *.
  - symmetry. apply clearKids_plain. apply length_zero_iff_nil. lia.
  - unfold replaceNext at 2. destruct (stepKids kids) as [kids'|] eqn:S.
    + apply stepKids_some in S as [S1 S2]. rewrite <- S1. apply IH. lia.
    + apply stepKids_none in S. apply IH. rewrite S. simpl. lia.
Qed.

Lemma clearKids_loop (kids : list node) :
  fold_left (fun b _ => replaceNext b) (querySelectorAll kids) kids
  = clearKids kids.
Proof. apply clearKids_loop_fuel. lia. Qed.

(** After the loop no highlight element is left. *)
Lemma clearKids_clean_from (kids : list node) :
  Forall (fun k => isHighlight k = false -> selectIn (clearNode k) = []) kids ->
  querySelectorAll (clearKids kids) = [].
Proof.
  intros IH.
  assert (A : querySelectorAll (map (clearChild clearNode) kids) = []).
  { induction IH as [|k kids Hk _ IHk]; [reflexivity|].
    cbn [map]. change (selectIn ((clearChild clearNode) k) ++ querySelectorAll (map (clearChild clearNode) kids) = []).
    rewrite IHk. unfold clearChild.
    destruct (isHighlight k); [reflexivity|]. now rewrite Hk. }
  unfold clearKids. destruct (existsb isHighlight kids); [|exact A].
  apply length_zero_iff_nil. now rewrite count_normalize, A.
Qed.

Lemma clearNode_clean (n : node) :
  isHighlight n = false -> selectIn (clearNode n) = [].
Proof.
  induction n as [s|s|t a kids IH] using node_induction; try reflexivity.
  intros H. rewrite clearNode_Elem. simpl in *. rewrite H. simpl.
  now apply clearKids_clean_from.
Qed.

Lemma clearKids_clean (kids : list node) :
  querySelectorAll (clearKids kids) = [].
Proof.
  apply clearKids_clean_from. apply Forall_forall. intros k _.
  apply clearNode_clean.
Qed.

(** The loop keeps the text of the document. *)
Lemma clearNode_text (n : node) : textContent (clearNode n) = textContent n.
Proof.
  induction n as [s|s|t a kids IH] using node_induction; try reflexivity.
  rewrite clearNode_Elem.
  change (textOf (clearKids kids) = textOf kids).
  unfold clearKids.
  assert (A : textOf (map (clearChild clearNode) kids) = textOf kids).
  { unfold textOf. f_equal. rewrite map_map. apply map_ext_Forall.
    apply Forall_impl with (2 := IH). intros k Hk. unfold clearChild.
    now destruct (isHighlight k). }
  destruct (existsb isHighlight kids); [|exact A].
  now rewrite normalize_text.
Qed.

Lemma clearKids_text (kids : list node) : textOf (clearKids kids) = textOf kids.
Proof.
  apply (clearNode_text (Elem "" [] kids)).
Qed.


End ClearFacts.

(** ** The popover element of the content document *)

Section TooltipFacts.
Import Js Dom Matcher Clear Apply.
Variable id : string.


Lemma containsId_hasId (n : node) : containsId id n = false -> hasId id n = false.
Proof.
  destruct n as [| |t a kids]; try reflexivity.
  simpl. intros H. now apply orb_false_iff in H as [H _].
Qed.


Lemma hasElementWithId_mergeText (kids : list node) :
  hasElementWithId id (mergeText kids) = hasElementWithId id kids.
Proof.
  induction kids as [|k kids IH]; [reflexivity|].
  destruct k as [s| |]; simpl; try now rewrite IH.
  destruct (isEmpty s); [exact IH|].
  rewrite <- IH. now destruct (mergeText kids) as [|[| |] rest].
Qed.

Lemma existsb_map_ext (f : node -> bool) (g : node -> node) (kids : list node) :
  Forall (fun k => f (g k) = f k) kids ->
  existsb f (map g kids) = existsb f kids.
Proof. induction 1 as [|k kids Hk _ IH]; simpl; congruence. Qed.

Lemma containsId_normalizeNode (n : node) :
  containsId id (normalizeNode n) = containsId id n.
Proof.
  induction n as [s|s|t a kids IH] using node_induction; try reflexivity.
  simpl. f_equal.
  change (hasElementWithId id (mergeText (map normalizeNode kids))
          = existsb (containsId id) kids).
  rewrite hasElementWithId_mergeText. now apply existsb_map_ext.
Qed.

Lemma hasElementWithId_normalize (kids : list node) :
  hasElementWithId id (normalize kids) = hasElementWithId id kids.
Proof.
  unfold normalize. rewrite hasElementWithId_mergeText.
  apply existsb_map_ext. apply Forall_forall. intros k _.
  apply containsId_normalizeNode.
Qed.

(** Clearing adds no element. *)
Lemma clearKids_id_from (kids : list node) :
  Forall (fun k => containsId id k = false ->
                   containsId id (clearNode k) = false) kids ->
  hasElementWithId id kids = false ->
  hasElementWithId id (clearKids kids) = false.
Proof.
  intros IH H.
  assert (A : hasElementWithId id (map (clearChild clearNode) kids) = false).
  { induction IH as [|k kids Hk _ IHk]; [reflexivity|].
    simpl in H. apply orb_false_iff in H as [H1 H2].
    cbn [map]. change (containsId id ((clearChild clearNode) k)
                       || hasElementWithId id (map (clearChild clearNode) kids) = false).
    rewrite (IHk H2), orb_false_r. unfold clearChild.
    destruct (isHighlight k); [reflexivity|auto]. }
  unfold clearKids. destruct (existsb isHighlight kids); [|exact A].
  now rewrite hasElementWithId_normalize.
Qed.

Lemma clearNode_id (n : node) :
  containsId id n = false -> containsId id (clearNode n) = false.
Proof.
  induction n as [s|s|t a kids IH] using node_induction; try reflexivity.
  intros H. rewrite clearNode_Elem. simpl in *.
  apply orb_false_iff in H as [H1 H2]. rewrite H1. simpl.
  now apply clearKids_id_from.
Qed.

Lemma clearKids_id (kids : list node) :
  hasElementWithId id kids = false ->
  hasElementWithId id (clearKids kids) = false.
Proof.
  apply clearKids_id_from. apply Forall_forall. intros k _. apply clearNode_id.
Qed.






End TooltipFacts.

Section RemoveFacts.
Import Js Dom Clear.

Lemma removeFirst_none_from (kids : list node) :
  Forall (fun k => containsId "vocab-tooltip" k = false -> removeIn k = None) kids ->
  hasElementWithId "vocab-tooltip" kids = false ->
  removeFirst removeIn kids = None.
Proof.
  induction 1 as [|k kids Hk _ IH]; simpl; intros H; [reflexivity|].
  apply orb_false_iff in H as [H1 H2].
  now rewrite (containsId_hasId _ _ H1), (Hk H1), (IH H2).
Qed.

Lemma removeIn_none (n : node) :
  containsId "vocab-tooltip" n = false -> removeIn n = None.
Proof.
  induction n as [s|s|t a kids IH] using node_induction; try reflexivity.
  simpl. intros H. apply orb_false_iff in H as [_ H].
  now rewrite (removeFirst_none_from kids IH H).
Qed.

(** With no element of that id in the document, the second half of
    [clearVocabularyHighlights] changes nothing. *)
Lemma removeTooltip_none (kids : list node) :
  hasElementWithId "vocab-tooltip" kids = false -> removeTooltip kids = kids.
Proof.
  intros H. unfold removeTooltip. rewrite removeFirst_none_from; auto.
  apply Forall_forall. intros k _. apply removeIn_none.
Qed.

(** What [removeTooltip] takes away is an element and what is below it. *)
Lemma removeFirst_count_from (kids : list node) :
  Forall (fun k => forall k', removeIn k = Some k' ->
                   List.length (selectIn k') <= List.length (selectIn k)) kids ->
  forall kids', removeFirst removeIn kids = Some kids' ->
    List.length (querySelectorAll kids') <= List.length (querySelectorAll kids).
Proof.
  induction 1 as [|k kids Hk _ IH]; simpl; intros kids'; [discriminate|].
  rewrite length_app.
  destruct (hasId "vocab-tooltip" k).
  - intros [= <-]. fold (querySelectorAll kids). lia.
  - destruct (removeIn k) as [k'|].
    + intros [= <-]. simpl. rewrite length_app. specialize (Hk k' eq_refl).
      fold (querySelectorAll kids). lia.
    + destruct (removeFirst removeIn kids) as [r|]; [|discriminate].
      intros [= <-]. simpl. rewrite length_app. specialize (IH r eq_refl).
      fold (querySelectorAll r) (querySelectorAll kids). lia.
Qed.

Lemma removeIn_count (n n' : node) :
  removeIn n = Some n' ->
  List.length (selectIn n') <= List.length (selectIn n).
Proof.
  revert n'.
  induction n as [s|s|t a kids IH] using node_induction; try discriminate.
  intros n'. simpl.
  destruct (removeFirst removeIn kids) as [r|] eqn:E; [|discriminate].
  intros [= <-]. simpl. rewrite !length_app.
  pose proof (removeFirst_count_from kids IH r E) as L.
  fold (querySelectorAll r) (querySelectorAll kids).
  destruct (hasClass "vocab-highlight" a); simpl; lia.
Qed.

Lemma removeTooltip_clean (kids : list node) :
  querySelectorAll kids = [] -> querySelectorAll (removeTooltip kids) = [].
Proof.
  intros H. unfold removeTooltip.
  destruct (removeFirst removeIn kids) as [r|] eqn:E; [|exact H].
  apply length_zero_iff_nil.
  assert (L : List.length (querySelectorAll r)
              <= List.length (querySelectorAll kids)).
  { apply removeFirst_count_from with (2 := E).
    apply Forall_forall. intros k _ k'. apply removeIn_count. }
  rewrite H in L. simpl in L. lia.
Qed.

(** The markup after [clearVocabularyHighlights]. *)
Lemma clearBody_eq (kids : list node) :
  clearBody kids = removeTooltip (clearKids kids).
Proof. unfold clearBody. now rewrite clearKids_loop. Qed.

Lemma clearBody_clean (kids : list node) :
  querySelectorAll (clearBody kids) = [].
Proof. rewrite clearBody_eq. apply removeTooltip_clean, clearKids_clean. Qed.

End RemoveFacts.

(** ** Clearing what the apply pass has made *)

Section RestoreFacts.
Import Js Dom Matcher Clear Apply.
Variable ws : list string.


Lemma refines_refl (kids : list node) : refines kids kids.
Proof. induction kids; constructor; auto. Qed.

Lemma refines_app (a b c d : list node) :
  refines a b -> refines c d -> refines (a ++ c) (b ++ d).
Proof.
  intros H H'. induction H as [|k fine coarse _ IH|pieces s fine coarse Hp Hs _ IH].
  - exact H'.
  - simpl. now constructor.
  - rewrite <- app_assoc. simpl. now constructor.
Qed.

Lemma refines_normalizedNodes (fine coarse : list node) :
  refines fine coarse ->
  forallb isNormalizedNode coarse = true ->
  forallb isNormalizedNode fine = true.
Proof.
  induction 1 as [|k fine coarse _ IH|pieces s fine coarse Hp Hs _ IH]; simpl.
  - reflexivity.
  - intros H. apply andb_true_iff in H as [H1 H2]. now rewrite H1, IH.
  - intros H. rewrite forallb_app, (IH H), andb_true_r.
    apply forallb_forall. intros p Hin.
    rewrite forallb_forall in Hp. specialize (Hp p Hin).
    now destruct p.
Qed.

(** Normalizing a refinement of a normalized list gives the list back. *)
Lemma refines_normalize (fine coarse : list node) :
  refines fine coarse -> isNormalized coarse = true -> normalize fine = coarse.
Proof.
  intros R H. apply andb_true_iff in H as [Hm Hk]. unfold normalize.
  replace (map normalizeNode fine) with fine.
  - rewrite (refines_mergeText _ _ R). now apply merged_fixed.
  - symmetry. rewrite <- (map_id fine) at 2. apply map_ext_in.
    pose proof (refines_normalizedNodes _ _ R Hk) as F.
    rewrite forallb_forall in F. intros k Hin.
    now apply normalizeNode_fixed, F.
Qed.

Lemma clearKids_of_refinement (Z kids : list node) :
  refines (map (clearChild clearNode) Z) kids ->
  (existsb isHighlight Z = false -> map (clearChild clearNode) Z = kids) ->
  isNormalized kids = true -> clearKids Z = kids.
Proof.
  intros R P N. unfold clearKids.
  destruct (existsb isHighlight Z); [|now apply P].
  now apply refines_normalize.
Qed.

Lemma pieces_cleared (r : list node) :
  Forall piece r ->
  forallb isText (map (clearChild clearNode) r) = true /\ textOf (map (clearChild clearNode) r) = textOf r.
Proof.
  induction 1 as [|k r Hk _ [IH1 IH2]]; [split; reflexivity|].
  cbn [map forallb]. rewrite !textOf_cons, IH1, IH2.
  destruct Hk as [s|m]; [split; reflexivity|].
  rewrite (clearChild_hit clearNode _ (isHighlight_createSpan m)).
  split; reflexivity.
Qed.

Lemma restore_from (kids : list node) :
  Forall (restoreFact ws) kids ->
  forallb isNormalizedNode kids = true -> querySelectorAll kids = [] ->
  forall parentTag Z,
    applyKids ws false parentTag kids = Some Z ->
    refines (map (clearChild clearNode) Z) kids /\
    (existsb isHighlight Z = false -> map (clearChild clearNode) Z = kids).
Proof.
  unfold applyKids.
  induction 1 as [|k kids Hk _ IH]; simpl; intros N Q tag Z.
  - intros [= <-]. split; [constructor|reflexivity].
  - apply andb_true_iff in N as [N1 N2]. apply app_eq_nil in Q as [Q1 Q2].
    destruct (applyNode ws false tag k) as [a|] eqn:A; [|discriminate].
    destruct (sequence (map (applyNode ws false tag) kids)) as [b|] eqn:B;
      [|discriminate].
    intros [= <-].
    destruct (Hk N1 Q1 tag a A) as [R1 P1].
    destruct (IH N2 Q2 tag b B) as [R2 P2].
    rewrite map_app, existsb_app. split.
    + apply (refines_app _ _ _ _ R1 R2).
    + intros E. apply orb_false_iff in E as [E1 E2].
      now rewrite (P1 E1), (P2 E2).
Qed.

Lemma restore_node (k : node) : restoreFact ws k.
Proof.
  induction k as [s|s|t a kids IH] using node_induction;
    intros N Q tag r; simpl.
  - unfold replaceText.
    destruct (isScriptOrStyle tag);
      [intros [= <-]; split; [apply refines_refl|reflexivity]|].
    destruct (isEmpty s);
      [intros [= <-]; split; [apply refines_refl|reflexivity]|].
    destruct (test ws s) eqn:T; simpl;
      [|intros [= <-]; split; [apply refines_refl|reflexivity]].
    intros B. pose proof (buildFragment_has_span _ _ _ T B) as Hs.
    pose proof (buildFragment_text _ _ _ B) as Ht.
    assert (Hp : Forall piece r) by (apply execLoop_pieces in B; auto).
    destruct (pieces_cleared _ Hp) as [C1 C2]. split.
    + rewrite <- (app_nil_r (map (clearChild clearNode) r)). constructor;
        [exact C1|congruence|constructor].
    + congruence.
  - intros [= <-]. split; [apply refines_refl|reflexivity].
  - simpl in N, Q. apply andb_true_iff in N as [Nm Nk].
    apply app_eq_nil in Q as [Qa Qk].
    assert (Ha : hasClass "vocab-highlight" a = false)
      by (destruct (hasClass "vocab-highlight" a); [discriminate|reflexivity]).
    rewrite Ha.
    destruct (sequence (map (applyNode ws false t) kids)) as [Z|] eqn:E;
      [|discriminate].
    intros [= <-].
    destruct (restore_from kids IH Nk Qk t Z E) as [R P].
    assert (C : clearKids Z = kids).
    { apply clearKids_of_refinement; auto.
      unfold isNormalized. now rewrite Nm, Nk. }
    assert (M : map (clearChild clearNode) [Elem t a Z] = [Elem t a kids]).
    { cbn [map]. rewrite clearChild_miss by exact Ha.
      now rewrite clearNode_Elem, C. }
    rewrite M. split; [apply refines_refl|reflexivity].
Qed.

(** On a normalized document without highlight elements, the clear loop
    undoes the apply pass. *)
Lemma clearKids_applyKids (kids Z : list node) (parentTag : string) :
  isNormalized kids = true -> querySelectorAll kids = [] ->
  applyKids ws false parentTag kids = Some Z -> clearKids Z = kids.
Proof.
  intros N Q A. pose proof N as N'. apply andb_true_iff in N' as [_ Nk].
  assert (F : Forall (restoreFact ws) kids)
    by (apply Forall_forall; intros k _; apply restore_node).
  destruct (restore_from kids F Nk Q parentTag Z A) as [R P].
  now apply clearKids_of_refinement.
Qed.

End RestoreFacts.

(** ** Reconciliation passes *)

Section ReconcileFacts.
Import Js Dom Matcher Clear Apply Reader.

Lemma body_clear (doc : Document) :
  body (clearVocabularyHighlights doc) = clearBody (body doc).
Proof. reflexivity. Qed.

(** The markup made by a pass: the apply pass over the cleared markup,
    or the cleared markup alone when no word is left. *)
Lemma highlight_body (doc : Document) (vocabulary : list VocabItem) :
  exists d1,
    highlightVocabularyInDocument doc vocabulary = Some d1 /\
    match words vocabulary with
    | [] => body d1 = clearBody (body doc)
    | ws => applyBody ws (clearBody (body doc)) = Some (body d1)
    end.
Proof.
  unfold highlightVocabularyInDocument.
  pose proof (words_nonEmpty vocabulary) as Hne.
  destruct (words vocabulary) as [|w ws] eqn:W.
  - eexists. split; reflexivity.
  - destruct (applyKids_total (w :: ws) (clearBody (body doc)) Hne false "BODY")
      as [Z A].
    rewrite body_clear. unfold applyBody. rewrite A.
    eexists. split; reflexivity.
Qed.

End ReconcileFacts.

(** * The properties of the specification *)

Section Claims.
Import Js Dom Matcher Clear Apply Reader Passes Samples.

(** The cleared markup of a normalized document that holds no element of
    id [vocab-tooltip]. *)
Lemma clearBody_normalized (kids : list node) :
  isNormalized kids = true ->
  hasElementWithId "vocab-tooltip" kids = false ->
  clearBody kids = clearKids kids /\
  isNormalized (clearBody kids) = true /\
  querySelectorAll (clearBody kids) = [] /\
  hasElementWithId "vocab-tooltip" (clearBody kids) = false.
Proof.
  intros N T.
  assert (E : clearBody kids = clearKids kids).
  { rewrite clearBody_eq. apply removeTooltip_none. now apply clearKids_id. }
  rewrite E. repeat split.
  - now apply clearKids_normalized.
  - apply clearKids_clean.
  - now apply clearKids_id.
Qed.

Lemma clearBody_plain (kids : list node) :
  querySelectorAll kids = [] ->
  hasElementWithId "vocab-tooltip" kids = false ->
  clearBody kids = kids.
Proof.
  intros Q T. rewrite clearBody_eq, (clearKids_plain _ Q).
  now apply removeTooltip_none.
Qed.

(** C1, as amended. On a document whose body is normalized (no empty
    text node, no two adjacent text nodes) and holds no element of id
    [vocab-tooltip], a reconciliation pass ends, a second pass with the
    same vocabulary ends as well, and the markup after the second pass is
    the markup after the first. *)
Theorem reconcile_twice_same_markup (doc : Document) (vocabulary : list VocabItem) :
  isNormalized (body doc) = true ->
  hasElementWithId "vocab-tooltip" (body doc) = false ->
  exists d1 d2,
    highlightVocabularyInDocument doc vocabulary = Some d1 /\
    highlightVocabularyInDocument d1 vocabulary = Some d2 /\
    body d2 = body d1.
Proof.
  intros N T.
  destruct (clearBody_normalized _ N T) as (_ & NX & QX & TX).
  destruct (highlight_body doc vocabulary) as (d1 & H1 & B1).
  destruct (highlight_body d1 vocabulary) as (d2 & H2 & B2).
  exists d1, d2. repeat split; auto.
  destruct (words vocabulary) as [|w ws].
  - rewrite B2, B1. now apply clearBody_plain.
  - assert (C : clearBody (body d1) = clearBody (body doc)).
    { rewrite clearBody_eq.
      rewrite (clearKids_applyKids (w :: ws) _ _ "BODY" NX QX B1).
      now apply removeTooltip_none. }
    rewrite C in B2. congruence.
Qed.


Lemma reconcile_twice_same_markup_witness :
  isNormalized (body stalePage) = true /\
  hasElementWithId "vocab-tooltip" (body stalePage) = false /\
  exists d1 d2,
    highlightVocabularyInDocument stalePage [item "cat"] = Some d1 /\
    highlightVocabularyInDocument d1 [item "cat"] = Some d2 /\
    body d2 = body d1.
Proof.
  split; [reflexivity|]. split; [reflexivity|].
  apply (reconcile_twice_same_markup stalePage [item "cat"]); reflexivity.
Defined.

(** C1 as stated fails, on two kinds of documents. On a body with two
    adjacent text nodes, the first pass wraps the text node [cat]; the
    second pass merges it with the text node before it and finds no whole
    word any more. On a normalized body that holds an element of id
    [vocab-tooltip] between the two texts, the first pass removes that
    element, which leaves the same two adjacent text nodes. *)
Lemma reconcile_twice_differs :
  (exists d1 d2,
      highlightVocabularyInDocument splitPage [item "cat"] = Some d1 /\
      highlightVocabularyInDocument d1 [item "cat"] = Some d2 /\
      body d1 = [Text "con"; createSpan "cat"] /\
      body d2 = [Text "concat"] /\
      body d2 <> body d1) /\
  (isNormalized (body brokenPage) = true /\
   exists d1 d2,
     highlightVocabularyInDocument brokenPage [item "cat"] = Some d1 /\
     highlightVocabularyInDocument d1 [item "cat"] = Some d2 /\
     body d1 = [Text "con"; createSpan "cat"] /\
     body d2 = [Text "concat"] /\
     body d2 <> body d1).
Proof.
  split; [|split; [reflexivity|]];
    exists (mkDocument [Text "con"; createSpan "cat"] [0] (Some 0) 1);
    exists (mkDocument [Text "concat"] [1] (Some 1) 2);
    repeat split; try (vm_compute; reflexivity);
    vm_compute; discriminate.
Qed.



(** The span loop alone, without the removal of the popover element,
    keeps the text of every document. *)
Lemma span_loop_keeps_text (kids : list node) :
  textOf (fold_left (fun b _ => replaceNext b) (querySelectorAll kids) kids)
  = textOf kids.
Proof. rewrite clearKids_loop. apply clearKids_text. Qed.

(** C5. For the vocabulary whose only word is [cat], the text node
    [concatenate a cat] is replaced by a text node followed by one span:
    the only match starts at index 14, the standalone word. *)
Theorem whole_word_cat :
  words [item "cat"] = ["cat"] /\
  exec ["cat"] "concatenate a cat" 0 = Some (14, "cat") /\
  exec ["cat"] "concatenate a cat" 17 = None /\
  applyBody (words [item "cat"]) [Text "concatenate a cat"]
  = Some [Text "concatenate a ";
          Elem "SPAN" [("class", "vocab-highlight"); ("data-word", "cat")]
               [Text "cat"]].
Proof. repeat split; vm_compute; reflexivity. Qed.

(** C6. For the word [ubiquitous], the text node
    [It was ubiquitous and UBIQUITOUS.] gets two spans, one around each
    occurrence as it is written, both with [data-word] equal to
    [ubiquitous]. *)
Theorem case_insensitive_ubiquitous :
  applyBody (words [item "ubiquitous"])
            [Text "It was ubiquitous and UBIQUITOUS."]
  = Some [Text "It was ";
          Elem "SPAN"
               [("class", "vocab-highlight"); ("data-word", "ubiquitous")]
               [Text "ubiquitous"];
          Text " and ";
          Elem "SPAN"
               [("class", "vocab-highlight"); ("data-word", "ubiquitous")]
               [Text "UBIQUITOUS"];
          Text "."].
Proof. vm_compute. reflexivity. Qed.

(** C7. When every word of the snapshot is blank (in particular when the
    snapshot is empty), [applyHighlights] returns the document as
    [clearVocabularyHighlights] leaves it: nothing is scanned, no span is
    made, no listener is touched, and no element of class
    [vocab-highlight] is left. *)
Theorem blank_vocabulary_only_clears (doc : Document) (vocab : list VocabItem) :
  (forall it, In it vocab -> trim (word it) = EmptyString) ->
  applyHighlights doc vocab = Some (clearVocabularyHighlights doc) /\
  querySelectorAll (body (clearVocabularyHighlights doc)) = [].
Proof.
  intros B. split; [|apply clearBody_clean].
  destruct vocab as [|it vocab]; [reflexivity|].
  unfold applyHighlights, highlightVocabularyInDocument.
  now rewrite (words_blank _ B).
Qed.

Lemma blank_vocabulary_only_clears_witness :
  (forall it, In it [item "  "] -> trim (word it) = EmptyString) /\
  applyHighlights stalePage [item "  "]
  = Some (clearVocabularyHighlights stalePage) /\
  querySelectorAll (body (clearVocabularyHighlights stalePage)) = [].
Proof.
  assert (B : forall it, In it [item "  "] -> trim (word it) = EmptyString).
  { intros it [<-|[]]. reflexivity. }
  split; [exact B|].
  exact (blank_vocabulary_only_clears stalePage [item "  "] B).
Defined.

(** C9, as amended. The words compiled into the alternation are the
    trimmed, non-empty words of the vocabulary, each once: the list has
    no two entries that are the same string. Entries that differ in case
    only are both kept. *)
Theorem words_distinct_strings (vocabulary : list VocabItem) :
  NoDup (words vocabulary) /\
  forall w, In w (words vocabulary) <->
            0 < length w /\
            exists it, In it vocabulary /\ trim (word it) = w.
Proof. split; [apply arrayFromSet_NoDup|apply words_In]. Qed.

(** C9 as stated fails: [Cat] and [cat] are two entries. *)
Lemma words_keep_case_variants :
  words [item "Cat"; item "cat"] = ["Cat"; "cat"] /\
  ~ NoDup (map toLowerCase (words [item "Cat"; item "cat"])).
Proof.
  split; [reflexivity|].
  intros H. vm_compute in H. inversion H as [|x l Hx _]; subst.
  apply Hx. now left.
Qed.

(** C10. For every vocabulary, the fragment built for a text node has
    the text of the node, and the apply pass over a document ends and
    leaves its text content as it was. *)
Theorem apply_keeps_text (vocabulary : list VocabItem) :
  (forall text, exists frag,
      buildFragment (words vocabulary) text = Some frag /\
      textOf frag = text) /\
  (forall kids, exists kids',
      applyBody (words vocabulary) kids = Some kids' /\
      textOf kids' = textOf kids).
Proof.
  pose proof (words_nonEmpty vocabulary) as Hne. split.
  - intros text.
    destruct (buildFragment_total (words vocabulary) text Hne) as [frag F].
    exists frag. split; [exact F|]. now apply buildFragment_text in F.
  - intros kids.
    destruct (applyKids_total (words vocabulary) kids Hne false "BODY")
      as [kids' A].
    exists kids'. split; [exact A|]. now apply applyKids_text in A.
Qed.

End Claims.

(** ** The click listener *)

Section ListenerFacts.
Import Js Dom Clear Apply Reader Passes Samples.







End ListenerFacts.

(** ** The timers of the relocation listener *)

Section SchedulerFacts.
Import Scheduler.

Lemma filter_none_due (now : nat) (ts : list nat) :
  (forall t, In t ts -> now < t) ->
  filter (fun t => t <=? now) ts = [] /\
  filter (fun t => negb (t <=? now)) ts = ts.
Proof.
  induction ts as [|t ts IH]; intros H; [split; reflexivity|].
  destruct IH as [I1 I2]; [intros x Hx; apply H; now right|].
  simpl. assert (L : now < t) by (apply H; now left).
  apply Nat.leb_gt in L. rewrite L. simpl. now rewrite I1, I2.
Qed.

Lemma filter_all_due (now : nat) (ts : list nat) :
  (forall t, In t ts -> t <= now) ->
  filter (fun t => t <=? now) ts = ts /\
  filter (fun t => negb (t <=? now)) ts = [].
Proof.
  induction ts as [|t ts IH]; intros H; [split; reflexivity|].
  destruct IH as [I1 I2]; [intros x Hx; apply H; now right|].
  simpl. assert (L : t <= now) by (apply H; now left).
  apply Nat.leb_le in L. rewrite L. simpl. now rewrite I1, I2.
Qed.

(** While the burst lasts no timer comes due, and each notification adds
    one. [t0] is the time of the first notification. *)
Lemma run_gaps (t0 : nat) (gaps : list nat) :
  forall l,
    t0 <= clock l ->
    clock l + list_sum gaps < t0 + 150 ->
    (forall t, In t (pending l) -> t0 + 150 <= t <= clock l + 150) ->
    let l' := run l (flat_map (fun g => [Elapse g; Relocated]) gaps) in
    clock l' = clock l + list_sum gaps /\
    List.length (pending l') = List.length (pending l) + List.length gaps /\
    runs l' = runs l /\
    (forall t, In t (pending l') -> t0 + 150 <= t <= clock l' + 150).
Proof.
  induction gaps as [|g gaps IH]; intros l H0 Hs Hp; simpl in *.
  - split; [lia|]. split; [lia|]. split; [lia|].
    intros t Ht. apply Hp in Ht. lia.
  - destruct (filter_none_due (clock l + g) (pending l)) as [F1 F2].
    { intros t Ht. apply Hp in Ht. lia. }
    set (l1 := handleRelocated (elapse g l)).
    assert (C1 : clock l1 = clock l + g) by reflexivity.
    assert (P1 : pending l1 = pending l ++ [clock l + g + 150])
      by (unfold l1, handleRelocated, setTimeout, elapse; simpl; now rewrite F2).
    assert (R1 : runs l1 = runs l)
      by (unfold l1, handleRelocated, setTimeout, elapse; simpl; rewrite F1;
          simpl; lia).
    destruct (IH l1) as (A & B & C & D).
    + lia.
    + lia.
    + intros t Ht. rewrite P1 in Ht. apply in_app_iff in Ht as [Ht|[<-|[]]].
      * apply Hp in Ht. lia.
      * lia.
    + fold (run l1 (flat_map (fun g0 => [Elapse g0; Relocated]) gaps)).
      rewrite A, B, C, C1, P1, R1, length_app. simpl.
      split; [lia|]. split; [lia|]. split; [lia|].
      intros t Ht. apply D in Ht. lia.
Qed.

(** C3, as amended. Every relocation notification starts a timer of its
    own and cancels none: after a burst of notifications that arrive
    within the delay of the first, as many timers are pending as there
    were notifications, and once the delay has passed after the last one
    [applyHighlights] has run once for each. *)
Theorem burst_accumulates (now : nat) (gaps : list nat) :
  list_sum gaps < 150 ->
  let l := run (idle now) (burst gaps) in
  List.length (pending l) = S (List.length gaps) /\
  runs l = 0 /\
  pending (elapse 150 l) = [] /\
  runs (elapse 150 l) = S (List.length gaps).
Proof.
  intros Hs. unfold burst. simpl.
  set (l0 := handleRelocated (idle now)).
  destruct (run_gaps now gaps l0) as (A & B & C & D).
  - simpl. lia.
  - simpl. lia.
  - simpl. intros t [<-|[]]. lia.
  - fold (run l0 (flat_map (fun g => [Elapse g; Relocated]) gaps)).
    set (l := run l0 (flat_map (fun g => [Elapse g; Relocated]) gaps)) in *.
    destruct (filter_all_due (clock l + 150) (pending l)) as [F1 F2].
    { intros t Ht. apply D in Ht. lia. }
    unfold elapse. simpl. rewrite F1, F2, B, C. simpl. repeat split; lia.
Qed.

Lemma burst_accumulates_witness :
  list_sum [10; 20] < 150 /\
  let l := run (idle 0) (burst [10; 20]) in
  List.length (pending l) = 3 /\
  runs l = 0 /\
  pending (elapse 150 l) = [] /\
  runs (elapse 150 l) = 3.
Proof.
  split; [simpl; lia|].
  apply (burst_accumulates 0 [10; 20]). simpl; lia.
Defined.

(** C3 as stated fails: two notifications ten milliseconds apart leave
    two timers pending, and [applyHighlights] runs twice. *)
Lemma two_notifications_two_timers :
  let l := run (idle 0) [Relocated; Elapse 10; Relocated] in
  pending l = [150; 160] /\
  List.length (pending l) <> 1 /\
  runs (elapse 150 l) = 2.
Proof. repeat split. vm_compute. discriminate. Qed.

End SchedulerFacts.

(** ** The popover *)

Section PopoverFacts.
Import Popover.
Local Open Scope Q_scope.

Lemma gt_true (a b : Q) : gt a b = true -> b < a.
Proof.
  unfold gt. intros H. apply negb_true_iff in H.
  apply Qnot_le_lt. intros L. apply Qle_bool_iff in L. congruence.
Qed.

Lemma gt_false (a b : Q) : gt a b = false -> a <= b.
Proof.
  unfold gt. intros H. apply negb_false_iff in H. now apply Qle_bool_iff.
Qed.

Lemma lt_true (a b : Q) : lt a b = true -> a < b.
Proof. unfold lt. apply gt_true. Qed.

Lemma lt_false (a b : Q) : lt a b = false -> b <= a.
Proof. unfold lt. apply gt_false. Qed.

(** The left coordinate on the desktop branch: never below 8, and either
    8 itself or at most what leaves the popover 16 short of the panel. *)
Lemma place_left (innerHeight viewportHeight : Q) (rect tipRect : DOMRect) :
  let p := place 800 innerHeight viewportHeight (Some 320) rect tipRect in
  8 <= styleLeft p /\
  (styleLeft p == 8 \/ styleLeft p <= 800 - 320 - 16 - width tipRect).
Proof.
  unfold place.
  change (Qle_bool 800 640) with false. cbv iota. simpl styleLeft.
  destruct (gt (left rect) (800 - 320 - 16 - width tipRect)) eqn:G;
    [apply gt_true in G|apply gt_false in G];
    match goal with
    | |- context [lt ?x 8] =>
        destruct (lt x 8) eqn:L; [apply lt_true in L|apply lt_false in L]
    end; split; try lra; (left; lra) || (right; lra).
Qed.

(** C8, as amended. In a main window 800 wide with a side panel 320
    wide, the popover is placed with its left edge at 8 or more, whatever
    its width and whatever the rectangle of the span; and, when it is not
    wider than 464 (the style sheet limits it to 240), its right edge is
    at 800 - 320 - 8 or less. *)
Theorem popover_clamped (innerHeight viewportHeight : Q) (rect tipRect : DOMRect) :
  let p := place 800 innerHeight viewportHeight (Some 320) rect tipRect in
  8 <= styleLeft p /\
  (width tipRect <= 464 ->
   styleLeft p + width tipRect <= 800 - 320 - 8).
Proof.
  intros p.
  destruct (place_left innerHeight viewportHeight rect tipRect) as [L [E|E]];
    fold p in L, E; split; try exact L; intros W; lra.
Qed.

(** The bound on the width is the exact one. *)
Lemma popover_right_edge (innerHeight viewportHeight : Q) (rect tipRect : DOMRect) :
  let p := place 800 innerHeight viewportHeight (Some 320) rect tipRect in
  styleLeft p + width tipRect <= 800 - 320 - 8 <-> width tipRect <= 464.
Proof.
  intros p.
  destruct (place_left innerHeight viewportHeight rect tipRect) as [L [E|E]];
    fold p in L, E; split; intros H; lra.
Qed.

Lemma popover_clamped_witness :
  240 <= 464 /\
  let p := place 800 600 600 (Some 320) (mkRect 700 100 120 40 20)
                 (mkRect 0 0 0 240 100) in
  8 <= styleLeft p /\ styleLeft p + 240 <= 800 - 320 - 8.
Proof.
  split; [unfold Qle; simpl; lia|].
  destruct (popover_clamped 600 600 (mkRect 700 100 120 40 20)
                            (mkRect 0 0 0 240 100)) as [L R].
  split; [exact L|]. apply R. unfold Qle; simpl; lia.
Defined.

(** C8 as stated fails for a popover 500 wide: its left edge is put at
    8 and its right edge at 508. *)
Lemma wide_popover_overflows :
  let p := place 800 600 600 (Some 320) (mkRect 700 100 120 40 20)
                 (mkRect 0 0 0 500 100) in
  styleLeft p == 8 /\
  ~ (styleLeft p + 500 <= 800 - 320 - 8).
Proof.
  split; [reflexivity|]. vm_compute. intros H. now apply H.
Qed.

End PopoverFacts.


(** * Further properties of the code *)

(** ** What [exec] finds *)

Section OccurrenceFacts.
Import Js Dom Matcher Apply Occurrence.
Local Open Scope string_scope.

Lemma substring_get (text : string) :
  forall i n d,
    get i text = Some d ->
    substring i (S n) text = String d (substring (S i) n text).
Proof.
  induction text as [|c text IH]; intros i n d; simpl; [discriminate|].
  destruct i as [|i].
  - intros [= ->]. reflexivity.
  - intros G. rewrite (IH i n d G). reflexivity.
Qed.

Lemma literalAt_sameLetters (w text : string) :
  forall i,
    literalAt w text i = true ->
    sameLetters w (substring i (length w) text) = true.
Proof.
  induction w as [|c w IH]; intros i H; simpl in *.
  - now rewrite substring_zero.
  - destruct (get i text) as [d|] eqn:G; [|discriminate].
    apply andb_true_iff in H as [H1 H2].
    rewrite (substring_get _ _ _ _ G). simpl. now rewrite H1, IH.
Qed.

Lemma sameLetters_length (a : string) :
  forall b, sameLetters a b = true -> length a = length b.
Proof.
  induction a as [|c a IH]; intros [|d b]; simpl; try discriminate; auto.
  intros H. apply andb_true_iff in H as [_ H]. f_equal. now apply IH.
Qed.

Lemma alternationAt_some (ws : list string) (text : string) (i len : nat) :
  alternationAt ws text i = Some len ->
  exists w, In w ws /\ len = length w /\
            literalAt w text i = true /\
            wordBoundary text (i + length w) = true.
Proof.
  induction ws as [|w ws IH]; simpl; [discriminate|].
  destruct (literalAt w text i && wordBoundary text (i + length w)) eqn:E.
  - intros [= <-]. apply andb_true_iff in E as [E1 E2].
    exists w. auto.
  - intros H. destruct (IH H) as (w' & I & R). exists w'. auto.
Qed.

Lemma alternationAt_none (ws : list string) (text : string) (i : nat) :
  alternationAt ws text i = None <->
  existsb (fun w => literalAt w text i && wordBoundary text (i + length w)) ws
  = false.
Proof.
  induction ws as [|w ws IH]; simpl; [tauto|].
  destruct (literalAt w text i && wordBoundary text (i + length w)); simpl.
  - split; discriminate.
  - exact IH.
Qed.

Lemma occursAt_alternation (ws : list string) (text : string) (i : nat) :
  occursAt ws text i = false <->
  (if wordBoundary text i then alternationAt ws text i else None) = None.
Proof.
  unfold occursAt. destruct (wordBoundary text i); simpl.
  - symmetry. apply alternationAt_none.
  - tauto.
Qed.

(** The search stops at the first index where a word occurs. *)
Lemma search_leftmost (ws : list string) (text : string) :
  forall n i,
    i + n <= S (length text) ->
    match search ws text i n with
    | Some (start, m) =>
        i <= start < i + n /\
        occursAt ws text start = true /\
        (forall j, i <= j < start -> occursAt ws text j = false) /\
        exists w, In w ws /\ length m = length w /\ sameLetters w m = true /\
                  m = slice text start (start + length m) /\
                  wordBoundary text (start + length m) = true
    | None => forall j, i <= j < i + n -> occursAt ws text j = false
    end.
Proof.
  induction n as [|n IH]; intros i Hn; simpl; [intros j Hj; lia|].
  destruct (if wordBoundary text i then alternationAt ws text i else None)
    as [len|] eqn:E.
  - assert (B : wordBoundary text i = true)
      by (destruct (wordBoundary text i); [reflexivity|discriminate]).
    rewrite B in E.
    destruct (alternationAt_some _ _ _ _ E) as (w & I & -> & L & B').
    assert (F : i + length w <= length text)
      by (apply literalAt_fits; [lia|exact L]).
    assert (Ls : length (slice text i (i + length w)) = length w).
    { unfold slice. replace (i + length w - i) with (length w) by lia.
      now apply length_substring. }
    split; [lia|]. split.
    + unfold occursAt. rewrite B. simpl. apply existsb_exists.
      exists w. split; [exact I|]. now rewrite L, B'.
    + split; [intros j Hj; lia|].
      exists w. rewrite Ls. repeat split; auto.
      unfold slice. replace (i + length w - i) with (length w) by lia.
      now apply literalAt_sameLetters.
  - apply occursAt_alternation in E.
    specialize (IH (S i)). destruct (search ws text (S i) n) as [[start m]|].
    + destruct IH as (R & O & Lm & W); [lia|].
      split; [lia|]. split; [exact O|]. split; [|exact W].
      intros j Hj. destruct (Nat.eq_dec j i) as [->|Hne]; [exact E|].
      apply Lm. lia.
    + intros j Hj. destruct (Nat.eq_dec j i) as [->|Hne]; [exact E|].
      apply IH; lia.
Qed.

Lemma exec_leftmost (ws : list string) (text : string) (lastIndex : nat) :
  match exec ws text lastIndex with
  | Some (start, m) =>
      lastIndex <= start <= length text /\
      occursAt ws text start = true /\
      (forall j, lastIndex <= j < start -> occursAt ws text j = false) /\
      exists w, In w ws /\ length m = length w /\ sameLetters w m = true /\
                m = slice text start (start + length m) /\
                wordBoundary text (start + length m) = true
  | None =>
      forall j, lastIndex <= j <= length text -> occursAt ws text j = false
  end.
Proof.
  unfold exec. destruct (length text <? lastIndex)%nat eqn:E.
  - apply Nat.ltb_lt in E. intros j Hj. lia.
  - apply Nat.ltb_ge in E.
    assert (Hn : lastIndex + S (length text - lastIndex) <= S (length text))
      by lia.
    pose proof (search_leftmost ws text (S (length text - lastIndex))
                                lastIndex Hn) as Hs.
    destruct (search ws text lastIndex (S (length text - lastIndex)))
      as [[start m]|].
    + destruct Hs as (R & O & Lm & W). repeat split; auto; lia.
    + intros j Hj. apply Hs; lia.
Qed.

(** X1. A match returned by [exec] is a whole word: it starts and ends
    at a word boundary of the text, it is the slice of the text it covers,
    it spells one of the words up to letter case, and no word occurs as a
    whole word at an earlier index from [lastIndex] on. *)
Theorem exec_finds_leftmost_whole_word
        (ws : list string) (text : string) (lastIndex start : nat) (m : string) :
  exec ws text lastIndex = Some (start, m) ->
  lastIndex <= start /\
  wordBoundary text start = true /\
  wordBoundary text (start + length m) = true /\
  m = slice text start (start + length m) /\
  (exists w, In w ws /\ sameLetters w m = true) /\
  (forall j, lastIndex <= j < start -> occursAt ws text j = false).
Proof.
  intros E. pose proof (exec_leftmost ws text lastIndex) as L.
  rewrite E in L. destruct L as (R & O & Lm & w & I & Lw & Sw & Ms & B).
  unfold occursAt in O. apply andb_true_iff in O as [O _].
  repeat split; auto; try lia. exists w. auto.
Qed.

Lemma exec_finds_leftmost_whole_word_witness :
  exec ["cat"] "a Cat in a category" 0 = Some (2, "Cat") /\
  0 <= 2 /\
  wordBoundary "a Cat in a category" 2 = true /\
  wordBoundary "a Cat in a category" (2 + length "Cat") = true /\
  "Cat" = slice "a Cat in a category" 2 (2 + length "Cat") /\
  (exists w, In w ["cat"] /\ sameLetters w "Cat" = true) /\
  (forall j, 0 <= j < 2 -> occursAt ["cat"] "a Cat in a category" j = false).
Proof.
  split; [reflexivity|].
  apply (exec_finds_leftmost_whole_word ["cat"] "a Cat in a category" 0 2 "Cat").
  reflexivity.
Defined.

(** X2. A text node is left as it is exactly when no word occurs in it
    as a whole word, at any index. *)
Theorem text_untouched_iff_no_occurrence (ws : list string) (text : string) :
  replaceText ws text = Some [Text text] <->
  forall i, i <= length text -> occursAt ws text i = false.
Proof.
  pose proof (exec_leftmost ws text 0) as L.
  unfold replaceText, test.
  destruct (isEmpty text) eqn:Em.
  - apply isEmpty_true in Em. subst text. split; [|reflexivity].
    intros _ i Hi. simpl in Hi. assert (i = 0) by lia. subst i. reflexivity.
  - destruct (exec ws text 0) as [[start m]|] eqn:E; simpl.
    + destruct L as (R & O & _). split.
      * intros B.
        assert (T : test ws text = true) by (unfold test; now rewrite E).
        pose proof (buildFragment_has_span ws text _ T B) as Hs.
        discriminate.
      * intros N. rewrite N in O by lia. discriminate.
    + split; [|reflexivity]. intros _ i Hi. apply L. lia.
Qed.

End OccurrenceFacts.

(** ** The spans of a pass *)

Section SpanFacts.
Import Js Dom Matcher Clear Apply Reader Occurrence.

(** A node of a fragment: a text node or a span made for the words. *)
Lemma execLoop_madeFor (ws : list string) (text : string) :
  forall fuel lastIndex frag r,
    Forall (fun n => isText n = true \/ madeFor ws n) frag ->
    execLoop fuel ws text lastIndex frag = Some r ->
    Forall (fun n => isText n = true \/ madeFor ws n) r.
Proof.
  induction fuel as [|fuel IH]; intros li frag r Hf; simpl; [discriminate|].
  pose proof (exec_leftmost ws text li) as L.
  destruct (exec ws text li) as [[start m]|].
  - destruct L as (_ & _ & _ & w & I & _ & Sw & _).
    apply IH. apply Forall_app; split.
    + destruct (li <? start);
        [apply Forall_app; split; [assumption|]|assumption].
      constructor; [now left|constructor].
    + constructor; [|constructor]. right. exists m, w. auto.
  - intros [= <-]. destruct (li <? length text); [|assumption].
    apply Forall_app; split; [assumption|].
    constructor; [now left|constructor].
Qed.

Lemma replaceText_madeFor (ws : list string) (text : string) (r : list node) :
  replaceText ws text = Some r ->
  Forall (fun n => isText n = true \/ madeFor ws n) r.
Proof.
  unfold replaceText.
  destruct (isEmpty text);
    [intros [= <-]; constructor; [now left|constructor]|].
  destruct (negb (test ws text));
    [intros [= <-]; constructor; [now left|constructor]|].
  apply execLoop_madeFor. constructor.
Qed.

Lemma selectIn_createSpan (m : string) : selectIn (createSpan m) = [createSpan m].
Proof. unfold createSpan, textChild. destruct (isEmpty m); reflexivity. Qed.

Lemma pieces_selected (ws : list string) (r : list node) :
  Forall (fun n => isText n = true \/ madeFor ws n) r ->
  Forall (madeFor ws) (querySelectorAll r).
Proof.
  induction 1 as [|n r Hn _ IH]; [constructor|].
  change (Forall (madeFor ws) (selectIn n ++ querySelectorAll r)).
  apply Forall_app; split; [|exact IH].
  destruct Hn as [Hn|Hn].
  - destruct n; try discriminate. constructor.
  - pose proof Hn as (m & w & -> & _).
    rewrite selectIn_createSpan. constructor; [exact Hn|constructor].
Qed.

Lemma sequence_madeFor (ws : list string) (f : node -> option (list node))
      (kids : list node) :
  Forall (fun k => selectIn k = [] ->
                   forall r, f k = Some r ->
                             Forall (madeFor ws) (querySelectorAll r)) kids ->
  querySelectorAll kids = [] ->
  forall r, sequence (map f kids) = Some r ->
            Forall (madeFor ws) (querySelectorAll r).
Proof.
  induction 1 as [|k kids Hk _ IH]; simpl; intros Q r.
  - intros [= <-]. constructor.
  - apply app_eq_nil in Q as [Q1 Q2].
    destruct (f k) as [a|] eqn:A; [|discriminate].
    destruct (sequence (map f kids)) as [b|]; [|discriminate].
    intros [= <-]. rewrite querySelectorAll_app.
    apply Forall_app; split; [now apply Hk|now apply IH].
Qed.

Lemma applyNode_madeFor (ws : list string) (n : node) :
  selectIn n = [] ->
  forall parentTag r,
    applyNode ws false parentTag n = Some r ->
    Forall (madeFor ws) (querySelectorAll r).
Proof.
  induction n as [s|s|t a kids IH] using node_induction; intros Q tag r; simpl.
  - destruct (isScriptOrStyle tag); [intros [= <-]; constructor|].
    intros R. apply pieces_selected. exact (replaceText_madeFor ws s r R).
  - intros [= <-]. constructor.
  - simpl in Q. apply app_eq_nil in Q as [Qa Qk].
    assert (Ha : hasClass "vocab-highlight" a = false)
      by (destruct (hasClass "vocab-highlight" a); [discriminate|reflexivity]).
    rewrite Ha.
    destruct (sequence (map (applyNode ws false t) kids)) as [Z|] eqn:E;
      [|discriminate].
    intros [= <-]. unfold querySelectorAll. simpl. rewrite Ha, app_nil_r. simpl.
    apply (sequence_madeFor ws (applyNode ws false t) kids) with (3 := E);
      [|exact Qk].
    apply Forall_impl with (2 := IH). intros k Hk Hq r. now apply Hk.
Qed.

Lemma applyKids_madeFor (ws : list string) (kids Z : list node) (tag : string) :
  querySelectorAll kids = [] ->
  applyKids ws false tag kids = Some Z ->
  Forall (madeFor ws) (querySelectorAll Z).
Proof.
  intros Q. unfold applyKids. apply sequence_madeFor; [|exact Q].
  apply Forall_forall. intros k _ Hq r. now apply applyNode_madeFor.
Qed.

(** The spans of the markup that a pass leaves. *)
Lemma highlight_spans (doc : Document) (vocabulary : list VocabItem) :
  exists d1,
    highlightVocabularyInDocument doc vocabulary = Some d1 /\
    Forall (madeFor (words vocabulary)) (querySelectorAll (body d1)).
Proof.
  destruct (highlight_body doc vocabulary) as (d1 & H1 & B1).
  exists d1. split; [exact H1|].
  destruct (words vocabulary) as [|w ws] eqn:W.
  - rewrite B1, clearBody_clean. constructor.
  - apply (applyKids_madeFor (w :: ws) _ _ "BODY" (clearBody_clean _) B1).
Qed.

(** X3. A pass ends, and every element of class [vocab-highlight] that
    the body holds afterwards is a span made by this pass: a [SPAN] with
    the class, with [data-word] the lower-cased text, around a text that
    is a word of the vocabulary (trimmed) up to letter case. Highlights of
    earlier passes and other elements of that class are gone. *)
Theorem pass_leaves_only_its_spans (doc : Document) (vocabulary : list VocabItem) :
  exists d1,
    highlightVocabularyInDocument doc vocabulary = Some d1 /\
    forall span, In span (querySelectorAll (body d1)) ->
      exists m w,
        span = Elem "SPAN"
                    [("class", "vocab-highlight"); ("data-word", toLowerCase m)]
                    [Text m] /\
        In w (words vocabulary) /\ sameLetters w m = true.
Proof.
  destruct (highlight_spans doc vocabulary) as (d1 & H1 & F).
  exists d1. split; [exact H1|]. intros span I.
  rewrite Forall_forall in F. destruct (F span I) as (m & w & -> & Iw & S).
  exists m, w. repeat split; auto.
  unfold createSpan, textChild.
  pose proof (words_nonEmpty vocabulary) as Hne.
  unfold nonEmptyWords in Hne. rewrite Forall_forall in Hne.
  specialize (Hne w Iw). rewrite (sameLetters_length _ _ S) in Hne.
  destruct m; [simpl in Hne; lia|reflexivity].
Qed.



(** X5. On a document that holds no element of id [vocab-tooltip],
    clearing twice is clearing once. *)
Theorem clear_twice (doc : Document) :
  hasElementWithId "vocab-tooltip" (body doc) = false ->
  clearVocabularyHighlights (clearVocabularyHighlights doc)
  = clearVocabularyHighlights doc.
Proof.
  intros T. unfold clearVocabularyHighlights. simpl. f_equal.
  apply clearBody_plain; [apply clearBody_clean|].
  rewrite clearBody_eq, removeTooltip_none; now apply clearKids_id.
Qed.

Lemma clear_twice_witness :
  hasElementWithId "vocab-tooltip" (body Samples.stalePage) = false /\
  clearVocabularyHighlights (clearVocabularyHighlights Samples.stalePage)
  = clearVocabularyHighlights Samples.stalePage.
Proof.
  split; [reflexivity|]. apply (clear_twice Samples.stalePage). reflexivity.
Defined.

End SpanFacts.

(** ** Letter case and blanks *)

Section LetterFacts.
Import Js Occurrence Letters.
Local Open Scope string_scope.

Lemma allChars_In (c : ascii) : In c allChars.
Proof.
  unfold allChars. rewrite <- (ascii_nat_embedding c).
  apply in_map, in_seq. pose proof (nat_ascii_bounded c). lia.
Qed.

Lemma forall_chars (P : ascii -> bool) :
  forallb P allChars = true -> forall c, P c = true.
Proof.
  intros H c. rewrite forallb_forall in H. apply H, allChars_In.
Qed.

Lemma forall_chars2 (P : ascii -> ascii -> bool) :
  forallb (fun c => forallb (P c) allChars) allChars = true ->
  forall c d, P c d = true.
Proof.
  intros H c d.
  apply (forall_chars (P c)). apply (forall_chars (fun c => forallb (P c) allChars) H).
Qed.

(** Characters that [Canonicalize] identifies have the same lower case.
    This is a fact of the code units U+0000 to U+00FF, which are the
    characters of the strings here. It ends with them: [Canonicalize]
    sends both U+00B5 and U+03BC to U+039C, while [toLowerCase] leaves
    each of the two as it is. *)
Lemma canonicalize_lowerChar (c d : ascii) :
  Ascii.eqb (canonicalize c) (canonicalize d) = true ->
  lowerChar c = lowerChar d.
Proof.
  intros H.
  assert (A : implb (Ascii.eqb (canonicalize c) (canonicalize d))
                    (Ascii.eqb (lowerChar c) (lowerChar d)) = true).
  { apply (forall_chars2
             (fun c d => implb (Ascii.eqb (canonicalize c) (canonicalize d))
                               (Ascii.eqb (lowerChar c) (lowerChar d)))).
    vm_compute. reflexivity. }
  rewrite H in A. simpl in A. now apply Ascii.eqb_eq.
Qed.

Lemma canonicalize_blank (c d : ascii) :
  Ascii.eqb (canonicalize c) (canonicalize d) = true ->
  isWhiteSpace c = isWhiteSpace d.
Proof.
  intros H.
  assert (A : implb (Ascii.eqb (canonicalize c) (canonicalize d))
                    (Bool.eqb (isWhiteSpace c) (isWhiteSpace d)) = true).
  { apply (forall_chars2
             (fun c d => implb (Ascii.eqb (canonicalize c) (canonicalize d))
                               (Bool.eqb (isWhiteSpace c) (isWhiteSpace d)))).
    vm_compute. reflexivity. }
  rewrite H in A. simpl in A. now apply Bool.eqb_prop.
Qed.

Lemma lowerChar_idem (c : ascii) : lowerChar (lowerChar c) = lowerChar c.
Proof.
  apply Ascii.eqb_eq.
  apply (forall_chars (fun c => Ascii.eqb (lowerChar (lowerChar c)) (lowerChar c))).
  vm_compute. reflexivity.
Qed.

Lemma lowerChar_blank (c : ascii) : isWhiteSpace (lowerChar c) = isWhiteSpace c.
Proof.
  apply Bool.eqb_prop.
  apply (forall_chars (fun c => Bool.eqb (isWhiteSpace (lowerChar c)) (isWhiteSpace c))).
  vm_compute. reflexivity.
Qed.

Lemma toLowerCase_idem (s : string) : toLowerCase (toLowerCase s) = toLowerCase s.
Proof. induction s; simpl; [reflexivity|]. now rewrite lowerChar_idem, IHs. Qed.

Lemma toLowerCase_length (s : string) : length (toLowerCase s) = length s.
Proof. induction s; simpl; congruence. Qed.

Lemma sameLetters_toLowerCase (a : string) :
  forall b, sameLetters a b = true -> toLowerCase a = toLowerCase b.
Proof.
  induction a as [|c a IH]; intros [|d b]; simpl; try discriminate; auto.
  intros H. apply andb_true_iff in H as [H1 H2].
  now rewrite (canonicalize_lowerChar _ _ H1), (IH b H2).
Qed.

Lemma sameLetters_blanks (a : string) :
  forall b, sameLetters a b = true -> sameBlanks a b = true.
Proof.
  induction a as [|c a IH]; intros [|d b]; simpl; try discriminate; auto.
  intros H. apply andb_true_iff in H as [H1 H2].
  rewrite (canonicalize_blank _ _ H1), (IH b H2).
  now destruct (isWhiteSpace d).
Qed.

Lemma toLowerCase_blanks (s : string) : sameBlanks s (toLowerCase s) = true.
Proof.
  induction s as [|c s IH]; simpl; [reflexivity|].
  rewrite lowerChar_blank, IH. now destruct (isWhiteSpace c).
Qed.

Lemma sameBlanks_length (a : string) :
  forall b, sameBlanks a b = true -> length a = length b.
Proof.
  induction a as [|c a IH]; intros [|d b]; simpl; try discriminate; auto.
  intros H. apply andb_true_iff in H as [_ H]. f_equal. now apply IH.
Qed.

Lemma sameBlanks_trans (a : string) :
  forall b c, sameBlanks a b = true -> sameBlanks b c = true ->
              sameBlanks a c = true.
Proof.
  induction a as [|x a IH]; intros [|y b] [|z c]; simpl; try discriminate; auto.
  intros H1 H2. apply andb_true_iff in H1 as [E1 H1].
  apply andb_true_iff in H2 as [E2 H2].
  apply Bool.eqb_prop in E1. apply Bool.eqb_prop in E2.
  rewrite E1, E2, (IH b c H1 H2). now destruct (isWhiteSpace z).
Qed.

Lemma sameBlanks_sym (a : string) :
  forall b, sameBlanks a b = true -> sameBlanks b a = true.
Proof.
  induction a as [|x a IH]; intros [|y b]; simpl; try discriminate; auto.
  intros H. apply andb_true_iff in H as [E H]. apply Bool.eqb_prop in E.
  rewrite E, (IH b H). now destruct (isWhiteSpace y).
Qed.

(** [trim] cuts strings with the same blanks at the same places. *)
Lemma sameBlanks_trimStart (a : string) :
  forall b, sameBlanks a b = true ->
            sameBlanks (trimStart a) (trimStart b) = true.
Proof.
  induction a as [|x a IH]; intros [|y b]; simpl; try discriminate; auto.
  intros H. apply andb_true_iff in H as [E H].
  destruct (isWhiteSpace x) eqn:Wx, (isWhiteSpace y) eqn:Wy;
    try discriminate.
  - now apply IH.
  - simpl. now rewrite Wx, Wy, H.
Qed.

Lemma sameBlanks_trimEnd (a : string) :
  forall b, sameBlanks a b = true ->
            sameBlanks (trimEnd a) (trimEnd b) = true.
Proof.
  induction a as [|x a IH]; intros [|y b]; simpl; try discriminate; auto.
  intros H. apply andb_true_iff in H as [E H].
  apply Bool.eqb_prop in E. specialize (IH b H).
  destruct (trimEnd a) as [|p a'], (trimEnd b) as [|q b']; try discriminate.
  - rewrite E. destruct (isWhiteSpace y) eqn:Wy; simpl; [reflexivity|].
    now rewrite E, Wy.
  - simpl in *. rewrite E. rewrite IH.
    now destruct (isWhiteSpace y).
Qed.

Lemma sameBlanks_trim (a b : string) :
  sameBlanks a b = true -> length (trim a) = length (trim b).
Proof.
  intros H. apply sameBlanks_length. unfold trim.
  now apply sameBlanks_trimEnd, sameBlanks_trimStart.
Qed.

Lemma trimStart_length (s : string) :
  length (trimStart s) <= length s /\
  (length (trimStart s) = length s -> trimStart s = s).
Proof.
  induction s as [|c s [IH1 IH2]]; simpl; [auto|].
  destruct (isWhiteSpace c); simpl; split; auto; lia.
Qed.

Lemma trimEnd_length (s : string) :
  length (trimEnd s) <= length s /\
  (length (trimEnd s) = length s -> trimEnd s = s).
Proof.
  induction s as [|c s [IH1 IH2]]; simpl; [auto|].
  destruct (trimEnd s) as [|p r] eqn:E.
  - destruct (isWhiteSpace c); simpl in *; split; try lia.
    intros H. assert (length s = 0) by lia. rewrite IH2 by lia. reflexivity.
  - simpl in *. split; [lia|]. intros H. f_equal. apply IH2. lia.
Qed.

(** A string that [trim] does not shorten is left as it is. *)
Lemma trim_length (s : string) :
  length (trim s) <= length s /\ (length (trim s) = length s -> trim s = s).
Proof.
  unfold trim.
  destruct (trimStart_length s) as [S1 S2].
  destruct (trimEnd_length (trimStart s)) as [E1 E2].
  split; [lia|]. intros H.
  assert (A : trimStart s = s) by (apply S2; lia).
  rewrite A in *. apply E2. exact H.
Qed.

(** Strings with the same blanks are trimmed together. *)
Lemma sameBlanks_trimmed (a b : string) :
  sameBlanks a b = true -> trim a = a -> trim b = b.
Proof.
  intros H T. apply trim_length.
  rewrite <- (sameBlanks_trim a b H), T. now apply sameBlanks_length.
Qed.

Lemma trimEnd_idem (s : string) : trimEnd (trimEnd s) = trimEnd s.
Proof.
  induction s as [|c s IH]; simpl; [reflexivity|].
  destruct (trimEnd s) as [|p r] eqn:E.
  - destruct (isWhiteSpace c) eqn:W; simpl; [reflexivity|]. now rewrite W.
  - simpl. simpl in IH. now rewrite IH.
Qed.

Lemma trimStart_fixed (s : string) :
  match s with String c _ => isWhiteSpace c = false | EmptyString => True end ->
  trimStart s = s.
Proof. destruct s; simpl; [reflexivity|]. now intros ->. Qed.

Lemma trimStart_head (s : string) :
  match trimStart s with
  | String c _ => isWhiteSpace c = false
  | EmptyString => True
  end.
Proof.
  induction s as [|c s IH]; simpl; [exact I|].
  destruct (isWhiteSpace c) eqn:W; [exact IH|exact W].
Qed.

Lemma trimEnd_head (s : string) :
  match s with String c _ => isWhiteSpace c = false | EmptyString => True end ->
  match trimEnd s with
  | String c _ => isWhiteSpace c = false
  | EmptyString => True
  end.
Proof.
  destruct s as [|c s]; simpl; [auto|]. intros W.
  destruct (trimEnd s); [rewrite W|]; exact W.
Qed.

Lemma trim_idem (s : string) : trim (trim s) = trim s.
Proof.
  unfold trim.
  rewrite (trimStart_fixed (trimEnd (trimStart s))).
  - apply trimEnd_idem.
  - apply trimEnd_head, trimStart_head.
Qed.

End LetterFacts.

(** ** The popover of a span of the pass and its delete button *)

Section DeleteFacts.
Import Js Dom Matcher Clear Apply Reader Occurrence Letters Inspect.

Lemma spanWord_createSpan (m : string) : spanWord (createSpan m) = toLowerCase m.
Proof.
  unfold spanWord, createSpan, orElse. simpl.
  destruct m as [|c m]; [reflexivity|]. simpl isEmpty. cbv iota.
  apply toLowerCase_idem.
Qed.

Lemma deletes_inspect (vocabulary : list VocabItem) (span : node) :
  deletes (inspect vocabulary span) = spanWord span.
Proof. reflexivity. Qed.

Lemma onDelete_In (w : string) (vocabulary : list VocabItem) (v : VocabItem) :
  In v (onDelete w vocabulary) <->
  In v vocabulary /\ toLowerCase (word v) <> toLowerCase w.
Proof.
  unfold onDelete. rewrite filter_In, negb_true_iff, String.eqb_neq. tauto.
Qed.

(** The span word of a span made for the words of a vocabulary. *)
Lemma madeFor_word (vocabulary : list VocabItem) (span : node) :
  madeFor (words vocabulary) span ->
  exists v, In v vocabulary /\ 0 < length (trim (word v)) /\
            spanWord span = toLowerCase (trim (word v)) /\
            sameBlanks (trim (word v)) (spanWord span) = true.
Proof.
  intros (m & w & -> & I & S).
  apply words_In in I as (L & v & Iv & <-).
  exists v. rewrite spanWord_createSpan.
  rewrite (sameLetters_toLowerCase _ _ S). repeat split; auto.
  apply sameBlanks_trans with (b := m).
  - now apply sameLetters_blanks.
  - apply toLowerCase_blanks.
Qed.

(** X6. For a document and a vocabulary written in the characters
    U+0000 to U+00FF, which are the strings here: when every word of the
    vocabulary is stored trimmed, the delete button of the popover of any
    span of a pass removes every entry that can make such a span: the
    pass that follows with the new vocabulary ends and leaves no span
    with that word. The restriction on the characters is needed
    ([canonicalize_lowerChar]): the entry [U+00B5 m] makes a span of the
    text [U+03BC m], whose word no entry has in lower case. *)
Theorem delete_removes_its_highlights (doc : Document) (vocabulary : list VocabItem) :
  storedTrimmed vocabulary ->
  exists d1,
    highlightVocabularyInDocument doc vocabulary = Some d1 /\
    forall span, In span (querySelectorAll (body d1)) ->
      exists d2,
        highlightVocabularyInDocument
          d1 (onDelete (deletes (inspect vocabulary span)) vocabulary)
        = Some d2 /\
        forall s, In s (querySelectorAll (body d2)) ->
                  spanWord s <> spanWord span.
Proof.
  intros T.
  destruct (highlight_spans doc vocabulary) as (d1 & H1 & F1).
  exists d1. split; [exact H1|]. intros span I.
  rewrite deletes_inspect.
  destruct (highlight_spans d1 (onDelete (spanWord span) vocabulary))
    as (d2 & H2 & F2).
  exists d2. split; [exact H2|]. intros s Is.
  rewrite Forall_forall in F1, F2.
  destruct (madeFor_word _ _ (F1 span I)) as (v & Iv & _ & Ev & _).
  destruct (madeFor_word _ _ (F2 s Is)) as (v' & Iv' & _ & Ev' & _).
  apply onDelete_In in Iv' as [Iv' N].
  rewrite Ev'. rewrite (T v' Iv'). intros E. apply N.
  rewrite E, Ev. now rewrite toLowerCase_idem.
Qed.

Lemma delete_removes_its_highlights_witness :
  let vocabulary := [mkVocabItem "Cat" None None; mkVocabItem "dog" None None] in
  storedTrimmed vocabulary /\
  exists d1,
    highlightVocabularyInDocument Samples.stalePage vocabulary = Some d1 /\
    forall span, In span (querySelectorAll (body d1)) ->
      exists d2,
        highlightVocabularyInDocument
          d1 (onDelete (deletes (inspect vocabulary span)) vocabulary)
        = Some d2 /\
        forall s, In s (querySelectorAll (body d2)) ->
                  spanWord s <> spanWord span.
Proof.
  intros vocabulary.
  assert (T : storedTrimmed vocabulary).
  { intros v [<-|[<-|[]]]; reflexivity. }
  split; [exact T|].
  exact (delete_removes_its_highlights Samples.stalePage vocabulary T).
Defined.

(** X7. For a document and a vocabulary written in the characters
    U+0000 to U+00FF, which are the strings here: when every word of the
    vocabulary is stored trimmed, the popover of any span of a pass finds
    an entry of the vocabulary: its title is the stored word of that
    entry, which is the text of the span up to letter case, and its body
    is the stored explanation when there is one that is not empty. The
    restriction on the characters is needed, as for the delete button
    above. *)
Theorem popover_finds_entry (doc : Document) (vocabulary : list VocabItem) :
  storedTrimmed vocabulary ->
  exists d1,
    highlightVocabularyInDocument doc vocabulary = Some d1 /\
    forall span, In span (querySelectorAll (body d1)) ->
      exists it,
        In it vocabulary /\
        findItem vocabulary (spanWord span) = Some it /\
        toLowerCase (word it) = toLowerCase (textContent span) /\
        title (inspect vocabulary span) = word it /\
        text (inspect vocabulary span)
        = orElse (match explanation it with Some e => e | None => EmptyString end)
                 placeholder.
Proof.
  intros T.
  destruct (highlight_spans doc vocabulary) as (d1 & H1 & F1).
  exists d1. split; [exact H1|]. intros span I.
  rewrite Forall_forall in F1. pose proof (F1 span I) as M.
  destruct (madeFor_word _ _ M) as (v & Iv & L & Ev & _).
  rewrite (T v Iv) in L, Ev.
  destruct M as (m & w & Es & _ & _).
  assert (Et : spanWord span = toLowerCase (textContent span))
    by (subst span; now rewrite spanWord_createSpan, textContent_createSpan).
  unfold inspect.
  destruct (findItem vocabulary (spanWord span)) as [it|] eqn:Fi.
  - pose proof Fi as Fi0. unfold findItem in Fi0.
    apply find_some in Fi0 as [Ii E]. apply String.eqb_eq in E.
    assert (Ne : isEmpty (word it) = false).
    { rewrite isEmpty_length, <- toLowerCase_length, E, Ev, toLowerCase_length.
      destruct (length (word v)); [lia|reflexivity]. }
    exists it. split; [exact Ii|]. split; [reflexivity|].
    split; [now rewrite E|]. split; [|reflexivity].
    cbn [title]. unfold orElse. now rewrite Ne.
  - exfalso. unfold findItem in Fi.
    apply (find_none _ _ Fi) in Iv. rewrite Ev, String.eqb_refl in Iv.
    discriminate.
Qed.

Lemma popover_finds_entry_witness :
  let vocabulary := [mkVocabItem "Cat" (Some "a pet") None] in
  storedTrimmed vocabulary /\
  exists d1,
    highlightVocabularyInDocument Samples.stalePage vocabulary = Some d1 /\
    forall span, In span (querySelectorAll (body d1)) ->
      exists it,
        In it vocabulary /\
        findItem vocabulary (spanWord span) = Some it /\
        toLowerCase (word it) = toLowerCase (textContent span) /\
        title (inspect vocabulary span) = word it /\
        text (inspect vocabulary span)
        = orElse (match explanation it with Some e => e | None => EmptyString end)
                 placeholder.
Proof.
  intros vocabulary.
  assert (T : storedTrimmed vocabulary).
  { intros v [<-|[]]; reflexivity. }
  split; [exact T|].
  exact (popover_finds_entry Samples.stalePage vocabulary T).
Defined.

(** X8. An entry whose stored word has white space at either end is
    never removed by the delete button of a span of the pass, whichever
    span it is: the spans carry trimmed words, and the comparison of
    [onDelete] is on the stored word as it is. *)
Theorem untrimmed_entry_survives_delete (doc : Document) (vocabulary : list VocabItem) :
  exists d1,
    highlightVocabularyInDocument doc vocabulary = Some d1 /\
    forall span v,
      In span (querySelectorAll (body d1)) ->
      In v vocabulary -> trim (word v) <> word v ->
      In v (onDelete (deletes (inspect vocabulary span)) vocabulary).
Proof.
  destruct (highlight_spans doc vocabulary) as (d1 & H1 & F1).
  exists d1. split; [exact H1|]. intros span v I Iv U.
  rewrite deletes_inspect. apply onDelete_In. split; [exact Iv|].
  rewrite Forall_forall in F1.
  destruct (madeFor_word _ _ (F1 span I)) as (v0 & _ & _ & Ev & B).
  intros E. apply U.
  assert (Tx : trim (spanWord span) = spanWord span).
  { apply (sameBlanks_trimmed _ _ B). apply trim_idem. }
  assert (Lx : toLowerCase (spanWord span) = spanWord span)
    by (rewrite Ev; apply toLowerCase_idem).
  rewrite Lx in E.
  apply (sameBlanks_trimmed (spanWord span) (word v)); [|exact Tx].
  rewrite <- E. apply sameBlanks_sym, toLowerCase_blanks.
Qed.

End DeleteFacts.

(** ** The pattern, the skipped regions and the text of a pass *)

Section PassFacts.
Import Js Dom Matcher Clear Apply Reader Pattern.

(** X9. Whatever characters the words hold, the pattern made of the
    escaped words joined by bars reads back, by the pattern grammar, as
    the alternation of exactly these words as literals. The reader
    accepts a backslash only before a syntax character and refuses a
    bare syntax character, so [escapeRegExp] escapes every syntax
    character of a word and nothing else: no character of a word acts
    as pattern syntax, and no escape is read as a class, an assertion
    or a back-reference. *)
Theorem escaped_words_are_literals (w : string) (ws : list string) :
  readAlternatives EmptyString (pattern (w :: ws)) = Some (w :: ws).
Proof. exact (readAlternatives_pattern_from ws w EmptyString). Qed.

Lemma sequence_singletons (f : node -> option (list node)) (kids : list node) :
  Forall (fun k => f k = Some [k]) kids ->
  sequence (map f kids) = Some kids.
Proof.
  induction 1 as [|k kids Hk _ IH]; simpl; [reflexivity|].
  now rewrite Hk, IH.
Qed.

Lemma applyNode_inside_highlight (ws : list string) (n : node) :
  forall parentTag, applyNode ws true parentTag n = Some [n].
Proof.
  induction n as [s|s|t a kids IH] using node_induction; intros tag; simpl;
    try reflexivity.
  rewrite (sequence_singletons (applyNode ws true t) kids); [reflexivity|].
  apply Forall_impl with (2 := IH). intros k Hk. apply Hk.
Qed.

Lemma sequence_app (xs ys : list (option (list node))) :
  sequence (xs ++ ys)
  = match sequence xs, sequence ys with
    | Some a, Some b => Some (a ++ b)
    | _, _ => None
    end.
Proof.
  induction xs as [|x xs IH]; simpl.
  - now destruct (sequence ys).
  - rewrite IH. destruct x as [a|]; [|reflexivity].
    destruct (sequence xs) as [b|]; [|reflexivity].
    destruct (sequence ys) as [c|]; [|reflexivity].
    now rewrite app_assoc.
Qed.

(** X10. The apply pass changes nothing inside an element of class
    [vocab-highlight], at any depth. And it leaves every text node that
    is a child of a [SCRIPT] or [STYLE] element as it is and where it
    is, whatever the other children of that element are: the pass over
    the element ends, and its children afterwards are what the pass
    makes of the children before the text node, the text node itself,
    and what the pass makes of the children after it. *)
Theorem apply_skips_highlights_and_styles (ws : list string) :
  (forall n inHighlight parentTag,
      isHighlight n = true ->
      applyNode ws inHighlight parentTag n = Some [n]) /\
  (forall t a before s after inHighlight parentTag,
      isScriptOrStyle t = true -> nonEmptyWords ws ->
      let inside :=
        inHighlight || isHighlight (Elem t a (before ++ Text s :: after)) in
      exists before' after',
        applyKids ws inside t before = Some before' /\
        applyKids ws inside t after = Some after' /\
        applyNode ws inHighlight parentTag (Elem t a (before ++ Text s :: after))
        = Some [Elem t a (before' ++ Text s :: after')]).
Proof.
  split.
  - intros n inH tag Hn. destruct n as [s|s|t a kids]; try discriminate.
    simpl in *. rewrite Hn, orb_true_r.
    rewrite (sequence_singletons (applyNode ws true t) kids); [reflexivity|].
    apply Forall_forall. intros k _. apply applyNode_inside_highlight.
  - intros t a before s after inH tag St Hne inside.
    destruct (applyKids_total ws before Hne inside t) as [b B].
    destruct (applyKids_total ws after Hne inside t) as [c C].
    exists b, c. split; [exact B|]. split; [exact C|].
    unfold applyKids in B, C.
    cbn [applyNode]. fold inside.
    rewrite map_app, sequence_app, B. cbn [map sequence applyNode].
    rewrite C, St, orb_true_r. reflexivity.
Qed.

Lemma apply_skips_highlights_and_styles_witness :
  nonEmptyWords ["cat"] /\
  applyNode ["cat"] false "HEAD"
            (Elem "STYLE" [] [Elem "B" [] [Text "cat"]; Text "cat"])
  = Some [Elem "STYLE" []
               [Elem "B" [] [createSpan "cat"]; Text "cat"]].
Proof.
  assert (Hne : nonEmptyWords ["cat"]).
  { constructor; [simpl; lia|constructor]. }
  split; [exact Hne|].
  destruct (apply_skips_highlights_and_styles ["cat"]) as [_ H].
  destruct (H "STYLE" [] [Elem "B" [] [Text "cat"]] "cat" [] false "HEAD"
              eq_refl Hne) as (b & c & B & C & E).
  vm_compute in B, C. injection B as <-. injection C as <-. exact E.
Defined.



End PassFacts.

(** ** The popover in any window *)

Section PlacementFacts.
Import Popover.
Local Open Scope Q_scope.

Lemma desktop_window (w : Q) : 640 < w -> Qle_bool w 640 = false.
Proof.
  intros H. destruct (Qle_bool w 640) eqn:E; [|reflexivity].
  apply Qle_bool_iff in E. lra.
Qed.

(** X12. In a main window wider than 640, the popover is placed with
    its left edge at 8 or more, and when it is narrow enough to fit
    between that margin and 16 short of the side panel, its right edge
    stays 16 short of the panel (of the window edge when there is no
    panel). *)
Theorem popover_beside_panel
        (innerWidth innerHeight viewportHeight : Q) (sidebar : option Q)
        (rect tipRect : DOMRect) :
  640 < innerWidth ->
  let panel := match sidebar with Some w => w | None => 0 end in
  let p := place innerWidth innerHeight viewportHeight sidebar rect tipRect in
  8 <= styleLeft p /\
  (width tipRect <= innerWidth - panel - 24 ->
   styleLeft p + width tipRect <= innerWidth - panel - 16).
Proof.
  intros D panel p. unfold p, place.
  rewrite (desktop_window _ D). cbv iota. simpl styleLeft. fold panel.
  destruct (gt (left rect) (innerWidth - panel - 16 - width tipRect)) eqn:G;
    [apply gt_true in G|apply gt_false in G];
    match goal with
    | |- context [lt ?x 8] =>
        destruct (lt x 8) eqn:L; [apply lt_true in L|apply lt_false in L]
    end; split; try lra; intros; lra.
Qed.

Lemma popover_beside_panel_witness :
  640 < 1280 /\
  let p := place 1280 700 700 None (mkRect 1200 100 120 40 20)
                 (mkRect 0 0 0 240 100) in
  8 <= styleLeft p /\
  (240 <= 1280 - 0 - 24 -> styleLeft p + 240 <= 1280 - 0 - 16).
Proof.
  split; [reflexivity|].
  apply (popover_beside_panel 1280 700 700 None (mkRect 1200 100 120 40 20)
                              (mkRect 0 0 0 240 100)).
  reflexivity.
Defined.



End PlacementFacts.

(** ** The quiz snippet *)

Section QuizFacts.
Import Js Quiz.
Local Open Scope string_scope.

Lemma collapse_singleSpaced (s : string) :
  forall b, singleSpaced b (collapse b s) = true.
Proof.
  induction s as [|c s IH]; intros b; simpl; [reflexivity|].
  destruct (isWhiteSpace c) eqn:W.
  - destruct b; [apply IH|]. simpl. now rewrite IH.
  - simpl. rewrite W. apply IH.
Qed.

(** After the first replacement no no-break space is left for the
    second. *)
Lemma replaceNbsp_singleSpaced (s : string) :
  forall b, singleSpaced b s = true -> replaceNbsp s = s.
Proof.
  induction s as [|c s IH]; intros b; simpl; [reflexivity|].
  destruct (isWhiteSpace c) eqn:W.
  - intros H. apply andb_true_iff in H as [H H2].
    apply andb_true_iff in H as [H1 _]. apply Ascii.eqb_eq in H1. subst c.
    simpl. f_equal. now apply (IH true).
  - intros H. rewrite (IH false H).
    destruct (code c =? 160)%nat eqn:E; [|reflexivity].
    apply Nat.eqb_eq in E. unfold isWhiteSpace in W. rewrite E in W.
    discriminate.
Qed.

Lemma trimStart_singleSpaced (s : string) :
  forall b, singleSpaced b s = true -> singleSpaced true (trimStart s) = true.
Proof.
  induction s as [|c s IH]; intros b; simpl; [reflexivity|].
  destruct (isWhiteSpace c) eqn:W.
  - intros H. apply andb_true_iff in H as [_ H]. now apply (IH true).
  - intros H. simpl. now rewrite W.
Qed.

Lemma trimEnd_singleSpaced (s : string) :
  forall b, singleSpaced b s = true -> singleSpaced b (trimEnd s) = true.
Proof.
  induction s as [|c s IH]; intros b; simpl; [reflexivity|].
  destruct (isWhiteSpace c) eqn:W.
  - intros H. apply andb_true_iff in H as [H H2].
    specialize (IH true H2).
    destruct (trimEnd s) as [|p r]; [reflexivity|].
    simpl in *. now rewrite W, H, IH.
  - intros H. specialize (IH false H).
    destruct (trimEnd s) as [|p r]; simpl in *; now rewrite W, ?IH.
Qed.

Lemma prefix_singleSpaced (s : string) :
  forall n b, singleSpaced b s = true ->
              singleSpaced b (substring 0 n s) = true.
Proof.
  induction s as [|c s IH]; intros [|n] b; simpl; try reflexivity.
  destruct (isWhiteSpace c).
  - intros H. apply andb_true_iff in H as [H H2].
    now rewrite H, (IH n true H2).
  - apply IH.
Qed.

Lemma prefix_length (s : string) :
  forall n, length (substring 0 n s) <= n /\
            (0 < n -> 0 < length s -> 0 < length (substring 0 n s)).
Proof.
  induction s as [|c s IH]; intros [|n]; simpl; try (split; lia).
  destruct (IH n). split; lia.
Qed.

Lemma collapse_hasInk (s : string) :
  forall b, hasInk (collapse b s) = hasInk s.
Proof.
  induction s as [|c s IH]; intros b; simpl; [reflexivity|].
  destruct (isWhiteSpace c) eqn:W; simpl.
  - destruct b; simpl; apply IH.
  - now rewrite W.
Qed.

Lemma replaceNbsp_hasInk (s : string) : hasInk (replaceNbsp s) = hasInk s.
Proof.
  induction s as [|c s IH]; simpl; [reflexivity|]. rewrite IH. f_equal.
  destruct (code c =? 160)%nat eqn:E; [|reflexivity].
  apply Nat.eqb_eq in E. unfold isWhiteSpace. now rewrite E.
Qed.

Lemma trimStart_hasInk (s : string) : hasInk (trimStart s) = hasInk s.
Proof.
  induction s as [|c s IH]; simpl; [reflexivity|].
  destruct (isWhiteSpace c) eqn:W; simpl; [exact IH|now rewrite W].
Qed.

Lemma trimEnd_hasInk (s : string) : hasInk (trimEnd s) = hasInk s.
Proof.
  induction s as [|c s IH]; simpl; [reflexivity|].
  destruct (trimEnd s) as [|p r].
  - simpl in IH. rewrite <- IH.
    destruct (isWhiteSpace c) eqn:W; simpl; now rewrite ?W.
  - simpl in *. now rewrite IH.
Qed.

Lemma blank_trimStart (s : string) : hasInk s = false -> trimStart s = "".
Proof.
  induction s as [|c s IH]; simpl; [reflexivity|].
  destruct (isWhiteSpace c); simpl; [exact IH|discriminate].
Qed.

Lemma hasInk_nonEmpty (s : string) : hasInk s = true -> isEmpty s = false.
Proof. destruct s; [discriminate|reflexivity]. Qed.

(** X14. The text kept for the quiz, when one is kept, is not empty, is
    at most 4000 characters long, does not begin with white space, and
    holds no white space other than single spaces between words. *)
Theorem quizContext_tidy (textContent q : string) :
  quizContext textContent = Some q ->
  0 < length q <= maxLen /\ singleSpaced true q = true.
Proof.
  unfold quizContext.
  set (normalized := trim (replaceNbsp (collapse false textContent))).
  destruct (isEmpty normalized) eqn:E; [discriminate|].
  intros [= <-].
  assert (S : singleSpaced true normalized = true).
  { unfold normalized, trim.
    rewrite (replaceNbsp_singleSpaced _ false (collapse_singleSpaced _ false)).
    apply trimEnd_singleSpaced.
    apply (trimStart_singleSpaced _ false), collapse_singleSpaced. }
  unfold slice. rewrite Nat.sub_0_r.
  destruct (prefix_length normalized maxLen) as [L1 L2].
  split; [split; [apply L2|exact L1]|now apply prefix_singleSpaced].
  - unfold maxLen. lia.
  - destruct normalized; [discriminate|simpl; lia].
Qed.

Lemma quizContext_tidy_witness :
  quizContext "  Call  me   Ishmael.  " = Some "Call me Ishmael." /\
  0 < length "Call me Ishmael." <= maxLen /\
  singleSpaced true "Call me Ishmael." = true.
Proof.
  split; [reflexivity|].
  apply (quizContext_tidy "  Call  me   Ishmael.  " "Call me Ishmael."). reflexivity.
Defined.

(** X15. The quiz text is left as it was exactly when the text of the
    body has no character other than white space. *)
Theorem quizContext_none_iff_blank (textContent : string) :
  quizContext textContent = None <-> hasInk textContent = false.
Proof.
  unfold quizContext.
  set (x := replaceNbsp (collapse false textContent)).
  assert (Hx : hasInk (trim x) = hasInk textContent).
  { unfold trim, x.
    now rewrite trimEnd_hasInk, trimStart_hasInk, replaceNbsp_hasInk,
      collapse_hasInk. }
  destruct (hasInk textContent) eqn:K.
  - rewrite (hasInk_nonEmpty _ Hx). split; discriminate.
  - assert (B : hasInk x = false).
    { unfold trim in Hx. now rewrite trimEnd_hasInk, trimStart_hasInk in Hx. }
    unfold trim. rewrite (blank_trimStart _ B). simpl. tauto.
Qed.

End QuizFacts.

(** ** The page number prompt *)

Section PageJumpFacts.
Import Js PageJump.
Local Open Scope Z_scope.

Lemma digits_uint (u : Decimal.uint) :
  forall a : nat,
    digits (Z.of_nat a) true (NilEmpty.string_of_uint u)
    = Some (Z.of_nat (Nat.of_uint_acc u a)).
Proof.
  induction u as [|u IH|u IH|u IH|u IH|u IH|u IH|u IH|u IH|u IH|u IH];
    intros a; [reflexivity|..];
    cbn [NilEmpty.string_of_uint digits Nat.of_uint_acc];
    match goal with
    | |- (if isDigit ?c then _ else _) = _ =>
        change (isDigit c) with true; cbv iota
    end;
    rewrite Nat.tail_mul_spec; rewrite <- IH; f_equal;
    match goal with
    | |- context [digitValue ?c] =>
        let v := eval vm_compute in (digitValue c) in
        change (digitValue c) with v
    end; lia.
Qed.

Lemma parseInt_uint (u : Decimal.uint) :
  parseInt (NilZero.string_of_uint u) = Some (Z.of_nat (Nat.of_uint u)) /\
  isEmpty (NilZero.string_of_uint u) = false.
Proof.
  destruct u; (split; [|reflexivity]);
    try reflexivity;
    unfold Nat.of_uint;
    cbn [NilZero.string_of_uint NilEmpty.string_of_uint Nat.of_uint_acc];
    unfold parseInt; cbn [trimStart];
    match goal with
    | |- context [isWhiteSpace ?c] => change (isWhiteSpace c) with false
    end; cbv iota; cbn [digits];
    match goal with
    | |- (if isDigit ?c then _ else _) = _ =>
        change (isDigit c) with true; cbv iota
    end;
    rewrite <- digits_uint; f_equal.
Qed.

(** Reading back the decimal writing of a page number. *)
Lemma parseInt_pageString (n : nat) :
  parseInt (pageString n) = Some (Z.of_nat n) /\
  isEmpty (pageString n) = false.
Proof.
  unfold pageString. destruct (parseInt_uint (Nat.to_uint n)) as [P E].
  rewrite P, DecimalNat.Unsigned.of_to. auto.
Qed.

Lemma net_next (n : nat) : net (repeat Next n) = Z.of_nat n.
Proof.
  induction n; [reflexivity|].
  change (net (repeat Next (S n))) with (1 + net (repeat Next n)). lia.
Qed.

Lemma net_prev (n : nat) : net (repeat Prev n) = - Z.of_nat n.
Proof.
  induction n; [reflexivity|].
  change (net (repeat Prev (S n))) with (net (repeat Prev n) - 1). lia.
Qed.

(** X16. Whatever is typed into the prompt, the page turns that
    [handlePageClick] makes are all forward or all backward, and they
    lead from the displayed page to a page between 1 and the total. *)
Theorem page_jump_stays_in_book (current total : Z) (answer : option string) :
  let calls := handlePageClick (Some (current, total)) answer in
  calls = [] \/
  (1 <= current + net calls <= total /\
   (calls = repeat Next (List.length calls) \/
    calls = repeat Prev (List.length calls))).
Proof.
  unfold handlePageClick.
  destruct (total <=? 0); [now left|].
  destruct answer as [input|]; [|now left].
  destruct (isEmpty input); [now left|].
  destruct (parseInt input) as [target|]; [|now left].
  destruct ((target <? 1) || (total <? target)) eqn:B; [now left|].
  apply orb_false_iff in B as [B1 B2].
  apply Z.ltb_ge in B1. apply Z.ltb_ge in B2.
  destruct (target - current =? 0); [now left|].
  destruct (0 <? target - current) eqn:D; right.
  - apply Z.ltb_lt in D. rewrite net_next, repeat_length, Z2Nat.id by lia.
    split; [lia|now left].
  - apply Z.ltb_ge in D. rewrite net_prev, repeat_length, Z2Nat.id by lia.
    split; [lia|now right].
Qed.

(** X17. Typing the decimal writing of a page number between 1 and the
    total makes as many forward turns as that page is ahead of the
    displayed one, or as many backward turns as it is behind; accepting
    the default of the prompt, the displayed page itself, makes none. *)
Theorem page_jump_typed (current total target : nat) :
  (1 <= target <= total)%nat ->
  handlePageClick (Some (Z.of_nat current, Z.of_nat total))
                  (Some (pageString target))
  = if (target <? current)%nat
    then repeat Prev (current - target)
    else repeat Next (target - current).
Proof.
  intros R. unfold handlePageClick.
  destruct (parseInt_pageString target) as [P E]. rewrite P, E.
  assert (T : (Z.of_nat total <=? 0) = false) by (apply Z.leb_gt; lia).
  rewrite T.
  assert (B : ((Z.of_nat target <? 1) || (Z.of_nat total <? Z.of_nat target)) = false).
  { apply orb_false_iff. split; apply Z.ltb_ge; lia. }
  rewrite B.
  destruct (target <? current)%nat eqn:C.
  - apply Nat.ltb_lt in C.
    assert (Z0 : (Z.of_nat target - Z.of_nat current =? 0) = false)
      by (apply Z.eqb_neq; lia).
    assert (Z1 : (0 <? Z.of_nat target - Z.of_nat current) = false)
      by (apply Z.ltb_ge; lia).
    rewrite Z0, Z1. f_equal. lia.
  - apply Nat.ltb_ge in C.
    destruct (Z.of_nat target - Z.of_nat current =? 0) eqn:Z0.
    + apply Z.eqb_eq in Z0. replace (target - current)%nat with 0%nat by lia.
      reflexivity.
    + apply Z.eqb_neq in Z0.
      assert (Z1 : (0 <? Z.of_nat target - Z.of_nat current) = true)
        by (apply Z.ltb_lt; lia).
      rewrite Z1. f_equal. lia.
Qed.

Lemma page_jump_typed_witness :
  (1 <= 12 <= 300)%nat /\
  handlePageClick (Some (Z.of_nat 15, Z.of_nat 300)) (Some (pageString 12))
  = if (12 <? 15)%nat then repeat Prev (15 - 12) else repeat Next (12 - 15).
Proof.
  split; [lia|]. apply (page_jump_typed 15 300 12). lia.
Defined.

End PageJumpFacts.

(** ** Swipes *)

Section SwipeFacts.
Import Swipe.
Local Open Scope Q_scope.

Lemma swipe_gt (a b : Q) : reflect (b < a) (gt a b).
Proof.
  unfold gt. destruct (Qle_bool a b) eqn:E; constructor.
  - apply Qle_bool_iff in E. now apply Qle_not_lt.
  - apply Qnot_le_lt. intros L. apply Qle_bool_iff in L. congruence.
Qed.

Lemma swipe_lt (a b : Q) : reflect (a < b) (lt a b).
Proof. exact (swipe_gt b a). Qed.

Lemma steep (a c : Q) : 0 < c -> (2 < a / c <-> 2 * c < a).
Proof.
  intros C. split; intros H.
  - apply Qnot_le_lt. intros L. apply (Qlt_not_le _ _ H).
    now apply Qle_shift_div_r.
  - now apply Qlt_shift_div_l.
Qed.

(** X18. A touch turns a page only when no text is selected, when the
    finger has travelled at least 10 to the right (previous page) or to
    the left (next page), and when the travel is not steep, that is at
    most twice as far vertically as horizontally, or else is a flick: at
    most 100 ms long and at least 30 wide. *)
Theorem swipe_turn_means (selected : bool) (t0 t1 : Touch) (d : turn) :
  handleTouchEnd selected t0 t1 = Some d ->
  selected = false /\
  match d with
  | Prev => 10 <= clientX t1 - clientX t0
  | Next => 10 <= clientX t0 - clientX t1
  end /\
  (Qabs (clientY t1 - clientY t0) <= 2 * Qabs (clientX t1 - clientX t0) \/
   (time t1 - time t0 <= 100 /\ 30 <= Qabs (clientX t1 - clientX t0))).
Proof.
  unfold handleTouchEnd. destruct selected; [discriminate|]. cbv zeta.
  set (dx := clientX t1 - clientX t0). set (dy := clientY t1 - clientY t0).
  set (dt := time t1 - time t0).
  destruct (swipe_lt (Qabs dx) 10) as [A|A]; [discriminate|].
  apply Qnot_lt_le in A.
  assert (P : 0 < Qabs dx) by lra.
  intros H. split; [reflexivity|].
  assert (F : Qabs dy <= 2 * Qabs dx \/ (dt <= 100 /\ 30 <= Qabs dx)).
  { destruct (swipe_gt (Qabs dy / Qabs dx) 2) as [S1|S1].
    - destruct (swipe_gt dt 100) as [S2|S2]; [discriminate|].
      destruct (swipe_lt (Qabs dx) 30) as [S3|S3]; [discriminate|].
      right. split; [now apply Qnot_lt_le|now apply Qnot_lt_le].
    - left. apply Qnot_lt_le. intros L. apply S1. now apply steep. }
  split; [|exact F].
  destruct (gt (Qabs dy / Qabs dx) 2 && (gt dt 100 || lt (Qabs dx) 30));
    [discriminate|].
  destruct (swipe_gt dx 0) as [G|G].
  - injection H as <-. assert (E : Qabs dx == dx) by (apply Qabs_pos; lra).
    fold dx. lra.
  - destruct (swipe_lt dx 0) as [L|L]; [|discriminate].
    injection H as <-. assert (E : Qabs dx == - dx) by (apply Qabs_neg; lra).
    unfold dx in *. lra.
Qed.

Lemma swipe_turn_means_witness :
  handleTouchEnd false (mkTouch 200 300 0) (mkTouch 120 310 250) = Some Next /\
  (false = false /\
   10 <= clientX (mkTouch 200 300 0) - clientX (mkTouch 120 310 250) /\
   (Qabs (clientY (mkTouch 120 310 250) - clientY (mkTouch 200 300 0))
    <= 2 * Qabs (clientX (mkTouch 120 310 250) - clientX (mkTouch 200 300 0)) \/
    (time (mkTouch 120 310 250) - time (mkTouch 200 300 0) <= 100 /\
     30 <= Qabs (clientX (mkTouch 120 310 250) - clientX (mkTouch 200 300 0))))).
Proof.
  split; [reflexivity|].
  apply (swipe_turn_means false (mkTouch 200 300 0) (mkTouch 120 310 250) Next).
  reflexivity.
Defined.

(** X19. Conversely, with no text selected, every touch that travels at
    least 10 horizontally and is not steep, or is a flick, turns a page:
    to the next page when it ends left of where it began, to the previous
    page otherwise. *)
Theorem swipe_turns (t0 t1 : Touch) :
  10 <= Qabs (clientX t1 - clientX t0) ->
  (Qabs (clientY t1 - clientY t0) <= 2 * Qabs (clientX t1 - clientX t0) \/
   (time t1 - time t0 <= 100 /\ 30 <= Qabs (clientX t1 - clientX t0))) ->
  handleTouchEnd false t0 t1
  = Some (if Qle_bool (clientX t1) (clientX t0) then Next else Prev).
Proof.
  intros A F. unfold handleTouchEnd. cbv zeta.
  set (dx := clientX t1 - clientX t0) in *.
  set (dy := clientY t1 - clientY t0) in *.
  set (dt := time t1 - time t0) in *.
  assert (P : 0 < Qabs dx) by lra.
  destruct (swipe_lt (Qabs dx) 10) as [A'|_]; [lra|].
  assert (N : gt (Qabs dy / Qabs dx) 2 && (gt dt 100 || lt (Qabs dx) 30) = false).
  { destruct (swipe_gt (Qabs dy / Qabs dx) 2) as [S1|S1]; [|reflexivity].
    apply steep in S1; [|exact P].
    destruct F as [F|[F1 F2]]; [lra|].
    destruct (swipe_gt dt 100) as [S2|S2]; [lra|].
    destruct (swipe_lt (Qabs dx) 30) as [S3|S3]; [lra|reflexivity]. }
  rewrite N.
  destruct (swipe_gt dx 0) as [G|G].
  - destruct (Qle_bool (clientX t1) (clientX t0)) eqn:E; [|reflexivity].
    apply Qle_bool_iff in E. unfold dx in G. lra.
  - apply Qnot_lt_le in G.
    assert (E : Qabs dx == - dx) by (now apply Qabs_neg).
    destruct (swipe_lt dx 0) as [L|L]; [|lra].
    assert (Lx : clientX t1 <= clientX t0) by (unfold dx in L; lra).
    apply Qle_bool_iff in Lx. now rewrite Lx.
Qed.

Lemma swipe_turns_witness :
  10 <= Qabs (clientX (mkTouch 100 300 40) - clientX (mkTouch 60 400 0)) /\
  handleTouchEnd false (mkTouch 60 400 0) (mkTouch 100 300 40)
  = Some (if Qle_bool (clientX (mkTouch 100 300 40)) (clientX (mkTouch 60 400 0))
          then Next else Prev).
Proof.
  split; [vm_compute; discriminate|].
  apply (swipe_turns (mkTouch 60 400 0) (mkTouch 100 300 40)).
  - vm_compute; discriminate.
  - right. split; vm_compute; discriminate.
Defined.

End SwipeFacts.

(** ** Timers that outlive their render *)

Section EffectFacts.
Import Dom Clear Apply Reader Occurrence Effect.

Lemma applyHighlights_spans (doc : Document) (vocab : list VocabItem) :
  exists d,
    applyHighlights doc vocab = Some d /\
    Forall (madeFor (words vocab)) (querySelectorAll (body d)).
Proof.
  destruct vocab as [|v vocab].
  - exists (clearVocabularyHighlights doc). split; [reflexivity|].
    rewrite body_clear, clearBody_clean. constructor.
  - exact (highlight_spans doc (v :: vocab)).
Qed.

(** X20. The timer that [handleRelocated] sets keeps the vocabulary of
    the render that registered it, and the clean-up of the effect cancels
    no timer. So when the vocabulary changes less than 150 ms after a
    relocation, the highlights are first applied with the new vocabulary
    and then, when the timer runs, applied again with the old one: the
    spans that the body holds at the end are those of the old
    vocabulary, while the state holds the new one. *)
Theorem timer_applies_vocabulary_of_its_render
        (t g : nat) (doc : Document) (old new : list VocabItem) :
  g < 150 ->
  exists d1 d2,
    applyHighlights doc new = Some d1 /\
    applyHighlights d1 old = Some d2 /\
    run (mkWorld t doc old [])
        [Relocated; Elapse g; SetVocabulary new; Elapse 150]
    = Some (mkWorld (t + g + 150) d2 new []) /\
    Forall (madeFor (words old)) (querySelectorAll (body d2)).
Proof.
  intros G.
  destruct (applyHighlights_spans doc new) as (d1 & A1 & _).
  destruct (applyHighlights_spans d1 old) as (d2 & A2 & S2).
  exists d1, d2. repeat split; try assumption.
  cbn [run step now document vocabulary timers app fire].
  assert (E1 : (t + 150 <=? t + g) = false) by (apply Nat.leb_gt; lia).
  rewrite E1. cbn [run step now document vocabulary timers fire].
  rewrite A1. cbn [run step now document vocabulary timers fire].
  assert (E2 : (t + 150 <=? t + g + 150) = true) by (apply Nat.leb_le; lia).
  rewrite E2, A2. reflexivity.
Qed.

Lemma timer_applies_vocabulary_of_its_render_witness :
  0 < 150 /\
  exists d1 d2,
    applyHighlights Samples.splitPage [] = Some d1 /\
    applyHighlights d1 [Samples.item "cat"] = Some d2 /\
    run (mkWorld 0 Samples.splitPage [Samples.item "cat"] [])
        [Relocated; Elapse 0; SetVocabulary []; Elapse 150]
    = Some (mkWorld (0 + 0 + 150) d2 [] []) /\
    Forall (madeFor (words [Samples.item "cat"])) (querySelectorAll (body d2)).
Proof.
  split; [lia|].
  apply (timer_applies_vocabulary_of_its_render
           0 0 Samples.splitPage [Samples.item "cat"] []).
  lia.
Defined.

End EffectFacts.

(** ** One popover at a time *)

Section PopupFacts.
Import Js Dom Clear Apply Inspect Popup.

Lemma countId_cons (id : string) (k : node) (kids : list node) :
  countId id (k :: kids) = countIn id k + countId id kids.
Proof. reflexivity. Qed.

Lemma countId_app (id : string) (a b : list node) :
  countId id (a ++ b) = countId id a + countId id b.
Proof. unfold countId. now rewrite map_app, list_sum_app. Qed.

Lemma countIn_elem (id t : string) (a : list (string * string)) (kids : list node) :
  countIn id (Elem t a kids)
  = (if hasId id (Elem t a kids) then 1 else 0) + countId id kids.
Proof. reflexivity. Qed.

Lemma countIn_hasId (id : string) (n : node) :
  hasId id n = true -> 1 <= countIn id n.
Proof.
  destruct n as [s|s|t a kids]; try discriminate.
  intros H. rewrite countIn_elem, H. lia.
Qed.

(** Removing the first element with the id takes at least one away, and
    nothing is removed only when there is none. *)
Lemma removeFirst_countId_from (kids : list node) :
  Forall (fun k =>
            (forall k', removeIn k = Some k' ->
                        countIn "vocab-tooltip" k' < countIn "vocab-tooltip" k) /\
            (removeIn k = None -> hasId "vocab-tooltip" k = false ->
             countIn "vocab-tooltip" k = 0)) kids ->
  (forall kids', removeFirst removeIn kids = Some kids' ->
                 countId "vocab-tooltip" kids' < countId "vocab-tooltip" kids) /\
  (removeFirst removeIn kids = None -> countId "vocab-tooltip" kids = 0).
Proof.
  induction 1 as [|k kids [Hs Hn] _ [IHs IHn]]; [split; [discriminate|reflexivity]|].
  cbn [removeFirst]. rewrite countId_cons.
  destruct (hasId "vocab-tooltip" k) eqn:I.
  - split; [|discriminate]. intros kids' [= <-].
    pose proof (countIn_hasId _ _ I). lia.
  - destruct (removeIn k) as [k'|].
    + split; [|discriminate]. intros kids' [= <-].
      rewrite countId_cons. specialize (Hs k' eq_refl). lia.
    + destruct (removeFirst removeIn kids) as [r|].
      * split; [|discriminate]. intros kids' [= <-].
        rewrite countId_cons. specialize (IHs r eq_refl). lia.
      * split; [discriminate|]. intros _.
        rewrite (Hn eq_refl eq_refl), (IHn eq_refl). reflexivity.
Qed.

Lemma removeIn_countIn (n : node) :
  (forall n', removeIn n = Some n' ->
              countIn "vocab-tooltip" n' < countIn "vocab-tooltip" n) /\
  (removeIn n = None -> hasId "vocab-tooltip" n = false ->
   countIn "vocab-tooltip" n = 0).
Proof.
  induction n as [s|s|t a kids IH] using node_induction;
    try (split; [discriminate|reflexivity]).
  destruct (removeFirst_countId_from kids IH) as [Ls Ln].
  cbn [removeIn]. destruct (removeFirst removeIn kids) as [r|].
  - split; [|discriminate]. intros n' [= <-].
    rewrite !countIn_elem. specialize (Ls r eq_refl).
    change (hasId "vocab-tooltip" (Elem t a r))
      with (hasId "vocab-tooltip" (Elem t a kids)). lia.
  - split; [discriminate|]. intros _ I.
    rewrite countIn_elem, I, (Ln eq_refl). reflexivity.
Qed.

Lemma removeTooltip_last (kids : list node) :
  countId "vocab-tooltip" kids <= 1 ->
  countId "vocab-tooltip" (removeTooltip kids) = 0.
Proof.
  intros H. unfold removeTooltip.
  destruct (removeFirst_countId_from kids) as [Ls Ln].
  { apply Forall_forall. intros k _. apply removeIn_countIn. }
  destruct (removeFirst removeIn kids) as [r|].
  - specialize (Ls r eq_refl). lia.
  - now apply Ln.
Qed.

Lemma countIn_tooltipElement (c : Content) (st : Styles) :
  countIn "vocab-tooltip" (tooltipElement c st) = 1.
Proof.
  unfold tooltipElement, textChild.
  destruct (isEmpty (title c)), (isEmpty (text c)); reflexivity.
Qed.

(** X21. There is one popover at a time. When the frame document and
    the main window each hold at most one element with the id
    [vocab-tooltip], then after a click the frame document holds none,
    and the main window holds one after a click within a highlight and
    none after a click elsewhere. *)
Theorem click_leaves_one_popover
        (vocabulary : list VocabItem) (st : Styles) (span : option node)
        (frame window : list node) :
  countId "vocab-tooltip" frame <= 1 ->
  countId "vocab-tooltip" window <= 1 ->
  let after := handleClick vocabulary st (Some span) frame window in
  countId "vocab-tooltip" (fst after) = 0 /\
  countId "vocab-tooltip" (snd after)
  = match span with Some _ => 1 | None => 0 end.
Proof.
  intros F W. cbv zeta. unfold handleClick.
  pose proof (removeTooltip_last frame F) as F'.
  pose proof (removeTooltip_last window W) as W'.
  destruct span as [s|]; cbn [fst snd].
  - split; [exact F'|].
    rewrite countId_app, W', countId_cons, countIn_tooltipElement. reflexivity.
  - split; assumption.
Qed.

Lemma click_leaves_one_popover_witness :
  let st := mkStyles "position: fixed;" "display: flex;" "color: red;" in
  let old := tooltipElement (mkContent "dog" placeholder "dog") st in
  countId "vocab-tooltip" [old] <= 1 /\
  let after :=
    handleClick [Samples.item "cat"] st (Some (Some (createSpan "Cat")))
                [Text "a "; createSpan "Cat"] [Elem "MAIN" [] [old]] in
  countId "vocab-tooltip" (fst after) = 0 /\
  countId "vocab-tooltip" (snd after) = 1.
Proof.
  cbv zeta. split; [vm_compute; lia|].
  apply (click_leaves_one_popover
           [Samples.item "cat"]
           (mkStyles "position: fixed;" "display: flex;" "color: red;")
           (Some (createSpan "Cat"))
           [Text "a "; createSpan "Cat"]
           [Elem "MAIN" []
                 [tooltipElement (mkContent "dog" placeholder "dog")
                    (mkStyles "position: fixed;" "display: flex;" "color: red;")]]);
    vm_compute; lia.
Defined.

End PopupFacts.
